(** * Collibra export tool: the REST client and the batch export dispatch

    A shallow embedding of [collibraClient.js] (request layer, offset
    pagination, community lookup and descendant resolution) and of the REST
    branch of [main] in [indexGraphQL.js], with the properties the design document
    states about them. *)

From Stdlib Require Import ZArith Lia.
From stdpp Require Import base option list strings pretty gmap relations.

Local Open Scope string_scope.
Local Open Scope list_scope.
Local Open Scope nat_scope.

(** ** JavaScript values and effects *)

(** The scalar values that occur in query parameters. *)
Inductive JsVal :=
  | JNum (n : Z)
  | JStr (s : string)
  | JBool (b : bool).

Abbreviation Params := (gmap string JsVal).

(** What [axios] attaches to an error when the server answered. *)
Record ErrorResponse := {
  status : Z;
  config_url : string;
  data : string
}.

(** A thrown JavaScript error: [error.message] and [error.response]. *)
Record JsError := {
  message : string;
  response : option ErrorResponse
}.

(** One [axios.get(url, { params, headers: { Authorization } })]. *)
Record Request := {
  url : string;
  params : Params;
  authorization : string
}.

(** The lines the client writes with [console.log] and [console.error],
    one constructor for each call site. *)
Inductive ConsoleLine :=
  | ApiRequestFailed (endpoint msg : string)
  | ErrStatus (st : Z)
  | ErrURL (u : string)
  | ErrResponseData (d : string)
  | FetchedContinuing (n : nat)
  | ExportSummary
  | SummaryLine (ok : bool) (community : string)
  | SummaryError (err : option string).

(** How a call ends: it returns, it throws, or the model's recursion budget
    is used up before it does either. *)
Inductive Completion (A : Type) :=
  | Returned (a : A)
  | Threw (e : JsError)
  | OutOfFuel.
Arguments Returned {A} a.
Arguments Threw {A} e.
Arguments OutOfFuel {A}.

Section Effects.
Context {Remote : Type}.

(** Everything outside the process: the state of the remote service, the
    requests sent so far (oldest first) and the console. *)
Record World := {
  remote : Remote;
  network : list Request;
  console : list ConsoleLine
}.

Definition Js (A : Type) : Type := World → Completion A * World.

#[global] Instance Js_ret : MRet Js := λ A a w, (Returned a, w).

#[global] Instance Js_bind : MBind Js := λ A B k c w,
  match c w with
  | (Returned a, w') => k a w'
  | (Threw e, w') => (Threw e, w')
  | (OutOfFuel, w') => (OutOfFuel, w')
  end.

Definition throw {A} (e : JsError) : Js A := λ w, (Threw e, w).

Definition out_of_fuel {A} : Js A := λ w, (OutOfFuel, w).

(** [try { c } catch (error) { handler error }] *)
Definition try_catch {A} (c : Js A) (handler : JsError → Js A) : Js A := λ w,
  match c w with
  | (Threw e, w') => handler e w'
  | r => r
  end.

Definition console_write (lines : list ConsoleLine) : Js unit := λ w,
  (Returned (), {| remote := remote w; network := network w;
                   console := console w ++ lines |}).
End Effects.
Arguments World : clear implicits.
Arguments Js : clear implicits.

(** ** collibraClient.js *)

(** The two fields of the client that the request layer reads:
    [this.config.apiURL] and [this.authHeader]. *)
Record CollibraClient := {
  apiURL : string;
  authHeader : string
}.

(** [const limit = 1000] *)
Definition limit : nat := 1000.

Section Client.
Context {Item Remote : Type}.

(** A response body: an object whose keys hold arrays of items. *)
Abbreviation Response := (gmap string (list Item)).

(** The HTTP layer: what the service answers to a request in a given
    state, and the state it is in afterwards. *)
Variable axios_get : Request → Remote → (JsError + Response) * Remote.

Variable this : CollibraClient.

(** The request of [axios.get]: the URL is [this.config.apiURL] followed
    by the endpoint, the header is [this.authHeader]. *)
Definition request_of (endpoint : string) (params : Params) : Request :=
  {| url := apiURL this +:+ endpoint; params := params;
     authorization := authHeader this |}.

Definition makeRequest (endpoint : string) (params : Params) : Js Remote Response :=
  λ w,
    let req := request_of endpoint params in
    match axios_get req (remote w) with
    | (inr body, r') =>
        (Returned body,
         {| remote := r'; network := network w ++ [req]; console := console w |})
    | (inl error, r') =>
        (Threw error,
         {| remote := r'; network := network w ++ [req];
            console := console w
              ++ [ApiRequestFailed endpoint (message error)]
              ++ match response error with
                 | Some resp =>
                     [ErrStatus (status resp); ErrURL (config_url resp);
                      ErrResponseData (data resp)]
                 | None => []
                 end |})
    end.

(** The three variables of the loop in [fetchAllPages]. *)
Record PageLoop := {
  allResults : list Item;
  offset : nat;
  hasMore : bool
}.

(** The parameters of the request of one iteration:
    [{ ...params, offset, limit }]. *)
Definition page_params (params : Params) (offset : nat) : Params :=
  <["limit" := JNum (Z.of_nat limit)]>
    (<["offset" := JNum (Z.of_nat offset)]> params).

(** The body of [while (hasMore) { ... }]. [allResults.push(...items)]
    appends the page; the pages meant here are those of the service, of
    [limit] items at most, far below the number of arguments that a call
    can take. *)
Definition fetchAllPages_body (endpoint : string) (params : Params)
    (itemsKey : string) (st : PageLoop) : Js Remote PageLoop :=
  resp ← makeRequest endpoint (page_params params (offset st));
  let items := default [] (resp !! itemsKey) in
  let allResults' := allResults st ++ items in
  let offset' := offset st + limit in
  let hasMore' := bool_decide (length items = limit) in
  (if hasMore' then console_write [FetchedContinuing (length allResults')]
   else mret ());;
  mret {| allResults := allResults'; offset := offset'; hasMore := hasMore' |}.

Fixpoint fetchAllPages_while (fuel : nat) (endpoint : string) (params : Params)
    (itemsKey : string) (st : PageLoop) : Js Remote (list Item) :=
  match fuel with
  | 0 => out_of_fuel
  | S fuel' =>
      if hasMore st then
        st' ← fetchAllPages_body endpoint params itemsKey st;
        fetchAllPages_while fuel' endpoint params itemsKey st'
      else mret (allResults st)
  end.

Definition fetchAllPages (fuel : nat) (endpoint : string) (params : Params)
    (itemsKey : string) : Js Remote (list Item) :=
  fetchAllPages_while fuel endpoint params itemsKey
    {| allResults := []; offset := 0; hasMore := true |}.
End Client.

(** *** Communities *)

(** [comm.parent], an object with the identifier of the parent. *)
Record Parent := {
  parent_id : string
}.

Record Community := {
  id : string;
  name : string;
  description : option string;
  parent : option Parent
}.

(** [comm.parent && comm.parent.id === parentId] *)
Definition is_child_of (parentId : string) (comm : Community) : bool :=
  match parent comm with
  | Some p => bool_decide (parent_id p = parentId)
  | None => false
  end.

(** What the engine throws when a call does not fit on the call stack any
    more: [RangeError: Maximum call stack size exceeded]. *)
Definition range_error : JsError :=
  {| message := "Maximum call stack size exceeded"; response := None |}.

(** The inner function of [getAllSubcommunities]. [communities] is the
    array it closes over. [stack] is the number of nested calls of the
    function that the call stack of the engine has room for; a call beyond
    it makes the engine throw [range_error], which nothing in the function
    catches, so that the outermost call ends with it: that is [None]. *)
Fixpoint findDescendants (stack : nat) (communities : list Community)
    (parentId : string) : option (list Community) :=
  match stack with
  | 0 => None
  | S stack' =>
      foldl (λ (acc : option (list Community)) (comm : Community),
               descendants ← acc;
               if is_child_of parentId comm then
                 children ← findDescendants stack' communities (id comm);
                 Some (descendants ++ [comm] ++ children)
               else Some descendants)
            (Some []) communities
  end.

Section Communities.
Context {Remote : Type}.
Variable axios_get :
  Request → Remote → (JsError + gmap string (list Community)) * Remote.
Variable this : CollibraClient.

(** [{ offset: 0, limit: 1000, sortField: 'NAME', sortOrder: 'ASC',
      excludeMeta: true }] *)
Definition defaultParams : Params :=
  {[ "offset" := JNum 0; "limit" := JNum 1000; "sortField" := JStr "NAME";
     "sortOrder" := JStr "ASC"; "excludeMeta" := JBool true ]}.

(** [{ ...defaultParams, ...params }]: the caller's keys win. *)
Definition getCommunities (params : Params)
    : Js Remote (gmap string (list Community)) :=
  makeRequest axios_get this "/communities" (params ∪ defaultParams).

(** [stack] is the room on the call stack for the calls of
    [findDescendants]; when they exceed it, the [RangeError] of the
    engine goes through this function to its caller. *)
Definition getAllSubcommunities (stack : nat) (communityId : string)
    : Js Remote (list Community) :=
  resp ← getCommunities {[ "limit" := JNum 1000 ]};
  let communities := default [] (resp !! "results") in
  let communityMap : gmap string Community :=
    foldl (λ m comm, <[id comm := comm]> m) ∅ communities in
  match findDescendants stack communities communityId with
  | Some subcommunities => mret subcommunities
  | None => throw range_error
  end.

(** [null] is [None]. *)
Definition getCommunityByName (name : string)
    : Js Remote (option Community) :=
  resp ← getCommunities
           {[ "name" := JStr name; "nameMatchMode" := JStr "EXACT" ]};
  let communities := default [] (resp !! "results") in
  if bool_decide (length communities = 0) then mret None
  else mret (communities !! 0).
End Communities.

(** *** Sub-resources of an asset *)

Record Asset := {
  asset_id : string;
  asset_name : string;
  domain_id : string;
  asset_type : option string
}.

Section AssetRequests.
Context {Item Remote : Type}.
Variable axios_get :
  Request → Remote → (JsError + gmap string (list Item)) * Remote.
Variable this : CollibraClient.

Definition getAssetAttributes (assetId : string) :=
  makeRequest axios_get this ("/assets/" +:+ assetId +:+ "/attributes") ∅.

(** [{ offset: 0, limit: 1000 }] *)
Definition pageDefaults : Params :=
  {[ "offset" := JNum 0; "limit" := JNum 1000 ]}.

Definition getAssetRelations (assetId : string) (params : Params) :=
  makeRequest axios_get this ("/assets/" +:+ assetId +:+ "/relations")
    (params ∪ pageDefaults).

Definition getAssetResponsibilities (assetId : string) (params : Params) :=
  makeRequest axios_get this ("/assets/" +:+ assetId +:+ "/responsibilities")
    (params ∪ pageDefaults).
End AssetRequests.

(** ** indexGraphQL.js *)

(** *** The prompts of [inquirer] *)

Inductive Answer :=
  | ABool (b : bool)
  | AStr (s : string).

Abbreviation Answers := (gmap string Answer).

(** JavaScript truthiness of [answers.key]. *)
Definition truthy (a : option Answer) : bool :=
  match a with
  | Some (ABool b) => b
  | Some (AStr s) => negb (String.eqb s "")
  | None => false
  end.

(** A question of type ['confirm'] or ['input'], with its [name],
    [message], [default] and, for confirmations, the optional [when]. *)
Inductive Question :=
  | Confirm (qname qmessage : string) (qdefault : bool)
            (when : option (Answers → bool))
  | Input (qname qmessage qdefault : string).

Definition question_name (q : Question) : string :=
  match q with
  | Confirm qname _ _ _ => qname
  | Input qname _ _ => qname
  end.

(** The person at the terminal: what they reply to the question of a given
    name, [None] when they accept the default. *)
Record User := {
  confirms : string → option bool;
  inputs : string → option string
}.

(** [inquirer.prompt(questions)]: the questions are asked in order, a
    question whose [when] is false on the answers so far is skipped and
    leaves no key in the answers. *)
Definition ask (user : User) (answers : Answers) (q : Question) : Answers :=
  match q with
  | Confirm qname _ qdefault when =>
      if match when with Some f => f answers | None => true end
      then <[qname := ABool (default qdefault (confirms user qname))]> answers
      else answers
  | Input qname _ qdefault =>
      <[qname := AStr (default qdefault (inputs user qname))]> answers
  end.

Definition prompt (user : User) (questions : list Question) : Answers :=
  foldl (ask user) ∅ questions.

(** [when: (answers) => answers.includeAssets] *)
Definition when_includeAssets : option (Answers → bool) :=
  Some (λ answers, truthy (answers !! "includeAssets")).

Definition configureExportOptions (user : User) (useGraphQL : bool) : Answers :=
  let questions :=
    [Confirm "includeAssets" "Include assets?" true None] in
  let questions :=
    if useGraphQL then
      questions ++
      [Confirm "includeAttributes"
         "Include all asset attributes (string, numeric, date, etc.)?"
         true when_includeAssets;
       Confirm "includeRelations"
         "Include asset relations (incoming & outgoing)?"
         true when_includeAssets;
       Confirm "includeResponsibilities"
         "Include asset responsibilities (stewards, owners)?"
         false when_includeAssets]
    else
      questions ++
      [Confirm "includeAttributes" "Include asset attributes?"
         true when_includeAssets;
       Confirm "includeRelations" "Include asset relations?"
         false when_includeAssets;
       Confirm "includeResponsibilities"
         "Include asset responsibilities (stewards, owners, etc.)?"
         false when_includeAssets] in
  let questions :=
    questions ++ [Input "outputDir" "Output directory:" "./exports"] in
  prompt user questions.

(** *** The REST export of [main] *)

(** An element of the array that [exportMultipleCommunities] returns, with
    the three fields the summary reads. *)
Record ExportResult := {
  success : bool;
  community : string;
  error : option string
}.

Section RestExport.
Context {Remote : Type}.

(** [for (const x of xs) { ... }] over a loop state. *)
Fixpoint for_of {A S : Type} (xs : list A) (body : A → S → Js Remote S)
    (s : S) : Js Remote S :=
  match xs with
  | [] => mret s
  | x :: xs' => s' ← body x s; for_of xs' body s'
  end.

(** [exporter.exportCommunity], the pipeline of one unit: it returns the
    location it wrote to, or throws. *)
Variable exportCommunity : Community → Answers → Js Remote string.

(** Modelled from the spec: [exportMultipleCommunities] of
    [collibraExporter.js], which is not among the sources. Section 4.4:
    the units are taken in input order, one at a time; a unit whose
    pipeline returns is recorded as a success naming the unit, a failure
    raised in the pipeline is caught at the unit's boundary and recorded
    with the unit's name and the failure's description, and the loop goes
    on with the next unit. *)
Definition exportMultipleCommunities (communities : list Community)
    (options : Answers) : Js Remote (list ExportResult) :=
  for_of communities
    (λ comm results,
       try_catch
         (exportCommunity comm options;;
          mret (results ++
                [{| success := true; community := name comm; error := None |}]))
         (λ err,
            mret (results ++
                  [{| success := false; community := name comm;
                      error := Some (message err) |}])))
    [].

(** The lines of the summary for one result. *)
Definition summary_lines (result : ExportResult) : list ConsoleLine :=
  [SummaryLine (success result) (community result)]
  ++ (if negb (success result) then [SummaryError (error result)] else []).

(** The end of the REST branch of [main]: one selected community is
    exported directly, several go through [exportMultipleCommunities]
    and are summarised. No community at all never gets here, [main] has
    left before. *)
Definition restExport (selectedCommunities : list Community)
    (exportOptions : Answers) : Js Remote unit :=
  match selectedCommunities with
  | [comm] => exportCommunity comm exportOptions;; mret ()
  | _ =>
      results ← exportMultipleCommunities selectedCommunities exportOptions;
      console_write [ExportSummary];;
      for_of results (λ result _, console_write (summary_lines result)) ()
  end.
End RestExport.

(** ** The asset aggregator *)

Record EnrichedAsset (Item : Type) := {
  base : Asset;
  attributes : option (list Item);
  relations : option (list Item);
  responsibilities : option (list Item)
}.
Arguments base {Item} _.
Arguments attributes {Item} _.
Arguments relations {Item} _.
Arguments responsibilities {Item} _.

Section Aggregator.
Context {Item Remote : Type}.
Variable axios_get :
  Request → Remote → (JsError + gmap string (list Item)) * Remote.
Variable this : CollibraClient.

(** A facet that is fetched when its flag is set and left out otherwise. *)
Definition facet (flag : bool) (fetch : Js Remote (gmap string (list Item)))
    : Js Remote (option (list Item)) :=
  if flag then resp ← fetch; mret (Some (default [] (resp !! "results")))
  else mret None.

(** Modelled from the spec: [aggregate] of the asset aggregator, which is
    part of [collibraExporter.js] and not among the sources. Section 4.3
    and the invariant of the export options in section 3: with
    [includeAssets] false nothing is fetched; otherwise each of the three
    flags gates one fetch through the client, the first failure
    propagates, and a facet whose flag is false is absent from the
    record. *)
Definition aggregate (asset : Asset) (options : Answers)
    : Js Remote (EnrichedAsset Item) :=
  if truthy (options !! "includeAssets") then
    attrs ← facet (truthy (options !! "includeAttributes"))
              (getAssetAttributes axios_get this (asset_id asset));
    rels ← facet (truthy (options !! "includeRelations"))
             (getAssetRelations axios_get this (asset_id asset) ∅);
    resps ← facet (truthy (options !! "includeResponsibilities"))
              (getAssetResponsibilities axios_get this (asset_id asset) ∅);
    mret {| base := asset; attributes := attrs; relations := rels;
            responsibilities := resps |}
  else
    mret {| base := asset; attributes := None; relations := None;
            responsibilities := None |}.
End Aggregator.

(** * Vocabulary of the statements *)

(** ** Remote services *)

Section Services.
Context {Item Remote : Type}.
Variable axios_get :
  Request → Remote → (JsError + gmap string (list Item)) * Remote.
Variable this : CollibraClient.

(** The service holds the sequence [items] behind an endpoint and
    honours [offset] and [limit]: in every state, the page requested at
    offset [off] is the next [limit] items from [off] on, under the key
    [itemsKey] (an empty page may also come without the key). *)
Definition serves (endpoint : string) (ps : Params) (itemsKey : string)
    (items : list Item) : Prop :=
  ∀ (off : nat) (r : Remote), ∃ (body : gmap string (list Item)) (r' : Remote),
    axios_get (request_of this endpoint (page_params ps off)) r = (inr body, r')
    ∧ default [] (body !! itemsKey) = take limit (drop off items).

(** [n] iterations of the loop of [fetchAllPages] from the state [st],
    each of which received a full page: the state and the world they lead
    to, [None] when one of them threw or received a short page. *)
Fixpoint full_pages (endpoint : string) (ps : Params) (itemsKey : string)
    (n : nat) (st : PageLoop) (w : World Remote)
    : option (PageLoop * World Remote) :=
  match n with
  | 0 => Some (st, w)
  | S n' =>
      if hasMore st then
        match fetchAllPages_body axios_get this endpoint ps itemsKey st w with
        | (Returned st', w') =>
            if hasMore st' then full_pages endpoint ps itemsKey n' st' w'
            else None
        | _ => None
        end
      else None
  end.
End Services.

(** The state in which [fetchAllPages] enters its loop. *)
Definition first_page {Item : Type} : @PageLoop Item :=
  {| allResults := []; offset := 0; hasMore := true |}.

(** The numeric parameter [key] of a request, [dflt] when it is absent. *)
Definition num_param (ps : Params) (key : string) (dflt : nat) : nat :=
  match ps !! key with
  | Some (JNum n) => Z.to_nat n
  | _ => dflt
  end.

(** A service without state that holds [items] and answers every request
    with the page that [offset] and [limit] select. *)
Definition paged_get {Item : Type} (items : list Item) (req : Request) (r : unit)
    : (JsError + gmap string (list Item)) * unit :=
  (inr {[ "results" :=
            take (num_param (params req) "limit" 1000)
              (drop (num_param (params req) "offset" 0) items) ]}, r).

(** The same service, except that it fails the request it receives after
    [k] earlier ones; its state counts the requests received. *)
Definition flaky_get {Item : Type} (items : list Item) (k : nat) (e : JsError)
    (req : Request) (served : nat) : (JsError + gmap string (list Item)) * nat :=
  if bool_decide (served = k) then (inl e, S served)
  else ((paged_get items req ()).1, S served).

(** The communities that the parameters of a request select: [name] with
    [nameMatchMode] ['EXACT'] selects those with exactly that name. *)
Definition selected (ps : Params) (all : list Community) : list Community :=
  match ps !! "name", ps !! "nameMatchMode" with
  | Some (JStr n), Some (JStr "EXACT") => filter (λ c, name c = n) all
  | _, _ => all
  end.

(** A catalog of communities without state: the selected communities, by
    pages. *)
Definition catalog_get (all : list Community) (req : Request) (r : unit)
    : (JsError + gmap string (list Community)) * unit :=
  paged_get (selected (params req) all) req r.

Section CatalogService.
Context {Remote : Type}.
Variable axios_get :
  Request → Remote → (JsError + gmap string (list Community)) * Remote.
Variable this : CollibraClient.

(** The service lists the communities [all] on [/communities]: in every
    state and for all parameters that give [offset] and [limit], it
    answers with that page of the communities the parameters select. *)
Definition catalog_service (all : list Community) : Prop :=
  ∀ (ps : Params) (off lim : nat) (r : Remote),
    ps !! "offset" = Some (JNum (Z.of_nat off)) →
    ps !! "limit" = Some (JNum (Z.of_nat lim)) →
    ∃ (body : gmap string (list Community)) (r' : Remote),
      axios_get (request_of this "/communities" ps) r = (inr body, r')
      ∧ default [] (body !! "results") = take lim (drop off (selected ps all)).
End CatalogService.

(** The parameters with which [getAllSubcommunities] asks for the
    communities, and those of [getCommunityByName]. *)
Definition listing_params : Params :=
  {[ "limit" := JNum 1000 ]} ∪ defaultParams.

Definition name_params (n : string) : Params :=
  {[ "name" := JStr n; "nameMatchMode" := JStr "EXACT" ]} ∪ defaultParams.

(** The call has ended, with a value or with a thrown error. *)
Definition finished {A : Type} (c : Completion A) : Prop :=
  match c with
  | Returned _ | Threw _ => True
  | OutOfFuel => False
  end.

(** ** The community graph *)

Section Graph.
Variable communities : list Community.

(** [child] is listed and its parent reference is the identifier [p]. *)
Definition child_of (p : string) (child : Community) : Prop :=
  child ∈ communities ∧ parent child = Some {| parent_id := p |}.

(** One parent link, between identifiers. *)
Definition link (p q : string) : Prop :=
  ∃ c, child_of p c ∧ id c = q.

(** [c] is transitively reachable from the identifier [root]: a chain of
    parent links leads from [root] to the parent of [c]. *)
Definition descendant (root : string) (c : Community) : Prop :=
  ∃ p, rtc link root p ∧ child_of p c.

(** A chain of one or more parent links from [x] back to [x]. *)
Definition on_cycle (x : string) : Prop := tc link x x.

(** The listing is a forest: no identifier twice, no cycle of parent
    references. *)
Definition forest : Prop :=
  NoDup (id <$> communities) ∧ ∀ x, ¬ on_cycle x.

(** A chain of parent links from [x] through the identifiers of [path]. *)
Fixpoint chain (x : string) (path : list string) : Prop :=
  match path with
  | [] => True
  | y :: path' => link x y ∧ chain y path'
  end.

(** A cycle can be reached from [root]. *)
Definition reaches_cycle (root : string) : Prop :=
  ∃ x, rtc link root x ∧ on_cycle x.
End Graph.

(** ** The shape of the result of [findDescendants] *)

Section Shape.
Variable communities : list Community.

(** What one pass of the loop of [findDescendants fuel parentId] over the
    communities [cs] appends: for every child of [parentId] in [cs], in
    order, the child followed by the result of the recursive call. *)
Inductive blocks (fuel : nat) (parentId : string)
    : list Community → list Community → Prop :=
  | blocks_nil : blocks fuel parentId [] []
  | blocks_skip comm cs out :
      is_child_of parentId comm = false →
      blocks fuel parentId cs out →
      blocks fuel parentId (comm :: cs) out
  | blocks_child comm cs children out :
      is_child_of parentId comm = true →
      findDescendants fuel communities (id comm) = Some children →
      blocks fuel parentId cs out →
      blocks fuel parentId (comm :: cs) (comm :: children ++ out).
End Shape.

(** Every community of [out] refers to a parent whose identifier is in
    [seen] or belongs to a community earlier in [out]. *)
Fixpoint parents_first (seen : list string) (out : list Community) : Prop :=
  match out with
  | [] => True
  | c :: out' =>
      (∃ q, q ∈ seen ∧ parent c = Some {| parent_id := q |})
      ∧ parents_first (id c :: seen) out'
  end.

(** A test for [forest] that computes: no identifier twice, and the
    descent from every listed community ends within the depth that the
    length of the listing allows. *)
Definition forest_check (communities : list Community) : bool :=
  bool_decide (NoDup (id <$> communities))
  && forallb (λ c, bool_decide (is_Some
        (findDescendants (S (length communities)) communities (id c))))
       communities.

(** ** A client, a world and an error for the examples *)

Definition example_client : CollibraClient :=
  {| apiURL := "https://acme.collibra.com/rest/2.0";
     authHeader := "Basic dXNlcjpzZWNyZXQ=" |}.

(** A world in which nothing was sent or printed yet. *)
Definition quiet {Remote : Type} (r : Remote) : World Remote :=
  {| remote := r; network := []; console := [] |}.

Definition unavailable : JsError :=
  {| message := "Request failed with status code 503";
     response := Some {| status := 503;
                         config_url := "https://acme.collibra.com/rest/2.0/assets";
                         data := "Service Unavailable" |} |}.

(** ** Batches *)

Definition succeeded (comm : Community) : ExportResult :=
  {| success := true; community := name comm; error := None |}.

Definition failed (comm : Community) (e : JsError) : ExportResult :=
  {| success := false; community := name comm; error := Some (message e) |}.

Section Batch.
Context {Remote : Type}.
Variable exportCommunity : Community → Answers → Js Remote string.
Variable options : Answers.

(** [processed units w results w'] : running the pipeline on the units
    one after the other, each in the world the one before left, gives
    these results, a success where the pipeline returned and a failure
    with the error's message where it threw, and ends in [w']. *)
Inductive processed
    : list Community → World Remote → list ExportResult → World Remote → Prop :=
  | processed_nil w : processed [] w [] w
  | processed_success comm units w location w1 results w2 :
      exportCommunity comm options w = (Returned location, w1) →
      processed units w1 results w2 →
      processed (comm :: units) w (succeeded comm :: results) w2
  | processed_failure comm units w e w1 results w2 :
      exportCommunity comm options w = (Threw e, w1) →
      processed units w1 results w2 →
      processed (comm :: units) w (failed comm e :: results) w2.
End Batch.

(** A service on which the requests that name the community [bad] fail
    and all others find nothing. *)
Definition down_for (bad : string) (req : Request) (r : unit)
    : (JsError + gmap string (list nat)) * unit :=
  match params req !! "communityId" with
  | Some (JStr i) =>
      if bool_decide (i = bad) then (inl unavailable, r) else paged_get [] req r
  | _ => paged_get [] req r
  end.

(** A pipeline for the examples: fetch the assets of the community, then
    name the file they would go to. *)
Definition assets_pipeline (bad : string) (comm : Community) (options : Answers)
    : Js unit string :=
  fetchAllPages (down_for bad) example_client 2 "/assets"
    {[ "communityId" := JStr (id comm) ]} "results";;
  mret ("./exports/" +:+ name comm +:+ ".json").

(** ** Listings for the examples *)

Definition top (i n : string) : Community :=
  {| id := i; name := n; description := None; parent := None |}.

Definition sub (i n p : string) : Community :=
  {| id := i; name := n; description := None;
     parent := Some {| parent_id := p |} |}.

(** A forest, in the order of the names; "Finance Accounting" is listed
    before its parent "Finance EMEA". *)
Definition finance_listing : list Community :=
  [ top "c-fin" "Finance";
    sub "c-apac" "Finance APAC" "c-fin";
    sub "c-acc" "Finance Accounting" "c-emea";
    sub "c-emea" "Finance EMEA" "c-fin";
    top "c-legal" "Legal";
    top "c-lower" "finance" ].

(** Two communities that name each other as parent. *)
Definition looped_listing : list Community :=
  [ sub "c-a" "A" "c-b"; sub "c-b" "B" "c-a" ].

(** The child of "root" with the number [i]. *)
Definition numbered (i : nat) : Community :=
  sub ("c" +:+ pretty i) ("Unit " +:+ pretty i) "root".

(** A catalog of [limit + 1] communities, one more than a page holds:
    the root and [limit] children of it. *)
Definition large_listing : list Community :=
  top "root" "Root" :: (numbered <$> seq 0 1000).

(** A user who accepts every default, and one who declines the assets. *)
Definition accepting : User :=
  {| confirms := λ _, None; inputs := λ _, None |}.

Definition declining : User :=
  {| confirms := λ q, if bool_decide (q = "includeAssets") then Some false else None;
     inputs := λ _, None |}.

(** Three units to export; the second is the one whose assets cannot be
    fetched in the examples. *)
Definition three_units : list Community :=
  [ top "c-fin" "Finance"; sub "c-emea" "Finance EMEA" "c-fin";
    top "c-legal" "Legal" ].

(** A user who wants the assets without their attributes. *)
Definition without_attributes : User :=
  {| confirms := λ q,
       if bool_decide (q = "includeAttributes") then Some false else None;
     inputs := λ _, None |}.

Definition revenue : Asset :=
  {| asset_id := "a-1"; asset_name := "Revenue"; domain_id := "d-1";
     asset_type := Some "Report" |}.

(** * More of indexGraphQL.js: the table and the selection *)

(** [s || dflt] for a string that may be missing: the empty string is
    falsy as well. *)
Definition or_string (s : option string) (dflt : string) : string :=
  match s with
  | Some "" | None => dflt
  | Some s' => s'
  end.




(** A choice of the checkbox prompt: [name], [value] and [short]. Strings
    are sequences of code units, [substring] counts in them. *)
Record Choice := {
  choice_name : string;
  value : nat;
  short : string
}.

(** The [choices] entry that [selectCommunities] builds for the community
    at [index]. *)
Definition choice_of (index : nat) (comm : Community) : Choice :=
  {| choice_name :=
       name comm +:+
       match description comm with
       | Some "" | None => ""
       | Some d => " - " +:+ String.substring 0 60 d
       end;
     value := index;
     short := name comm |}.

(** The answer of a prompt of type ['checkbox']: the values of the choices
    that the user has checked, in the order of the choices. [checked] tells
    which positions the user checks; [pos] is the position of the first
    choice of the list. *)
Fixpoint checkbox_from (pos : nat) (checked : nat → bool) (choices : list Choice)
    : list nat :=
  match choices with
  | [] => []
  | choice :: choices' =>
      (if checked pos then [value choice] else [])
      ++ checkbox_from (S pos) checked choices'
  end.

(** [selectedIndices.map(index => communities[index])]; an index outside
    the array would give [undefined], which is [None]. *)
Definition selectCommunities (checked : nat → bool) (communities : list Community)
    : list (option Community) :=
  let choices := imap choice_of communities in
  let selectedIndices := checkbox_from 0 checked choices in
  (λ index, communities !! index) <$> selectedIndices.

(** * More vocabulary *)

(** The communities at the checked positions, counted from [pos]. *)
Fixpoint picked_from (pos : nat) (checked : nat → bool) (communities : list Community)
    : list Community :=
  match communities with
  | [] => []
  | comm :: communities' =>
      (if checked pos then [comm] else [])
      ++ picked_from (S pos) checked communities'
  end.

(** The requests of [n] consecutive pages from the page number [k] on. *)
Definition page_requests (this : CollibraClient) (endpoint : string)
    (ps : Params) (k n : nat) : list Request :=
  (λ i, request_of this endpoint (page_params ps (i * limit))) <$> seq k n.

(** The progress notices after the pages [k], ..., [k + n - 1]. *)
Definition progress_lines (k n : nat) : list ConsoleLine :=
  (λ i, FetchedContinuing (i * limit)) <$> seq k n.

(** A service that answers every request with the same page, whatever the
    offset. *)
Definition same_page_get {Item : Type} (page : list Item) (req : Request) (r : unit)
    : (JsError + gmap string (list Item)) * unit :=
  (inr {[ "results" := page ]}, r).

(** A service that answers under the key ["data"] only. *)
Definition data_key_get {Item : Type} (items : list Item) (req : Request) (r : unit)
    : (JsError + gmap string (list Item)) * unit :=
  (inr {[ "data" := items ]}, r).

(** A user who gives every answer explicitly. *)
Definition explicit : User :=
  {| confirms := λ q, Some (bool_decide (q ≠ "includeResponsibilities"));
     inputs := λ _, Some "/tmp/out" |}.

(** The positions 0, 2 and 3. *)
Definition some_positions (i : nat) : bool :=
  bool_decide (i = 0) || bool_decide (i = 2) || bool_decide (i = 3).

(** The user's answer about the assets, the default being yes. *)
Definition wants_assets (user : User) : bool :=
  default true (confirms user "includeAssets").

(** The options when the assets are declined: two keys. *)
Definition declined_options (user : User) : Answers :=
  <["outputDir" := AStr (default "./exports" (inputs user "outputDir"))]>
    (<["includeAssets" := ABool false]> ∅).

(** The options when the assets are wanted: five keys; [relations] is the
    default of the question about the relations. *)
Definition accepted_options (user : User) (relations : bool) : Answers :=
  <["outputDir" := AStr (default "./exports" (inputs user "outputDir"))]>
    (<["includeResponsibilities" :=
         ABool (default false (confirms user "includeResponsibilities"))]>
       (<["includeRelations" :=
            ABool (default relations (confirms user "includeRelations"))]>
          (<["includeAttributes" :=
               ABool (default true (confirms user "includeAttributes"))]>
             (<["includeAssets" := ABool true]> ∅)))).

(** * Properties *)

Lemma limit_pos : 0 < limit.
Proof. unfold limit. lia. Qed.

Lemma Z_of_limit : Z.of_nat limit = 1000%Z.
Proof. reflexivity. Qed.

#[local] Opaque limit.

(** Unfolds the operations of the [Js] monad. *)
Ltac js_unfold :=
  unfold mbind, Js_bind, mret, Js_ret, throw, out_of_fuel, try_catch,
    console_write in *.

(** A sequence that returns has run its first part to a value and the
    rest from there. *)
Lemma bind_returned {Remote A B : Type} (c : Js Remote A) (k : A → Js Remote B)
    (w w' : World Remote) (b : B) :
  (c ≫= k) w = (Returned b, w') →
  ∃ a w0, c w = (Returned a, w0) ∧ k a w0 = (Returned b, w').
Proof.
  js_unfold. destruct (c w) as [[a|e|] w0]; try done. intros Hk. by exists a, w0.
Qed.

(** ** Pagination *)

Section PaginationFacts.
Context {Item Remote : Type}.
Variable axios_get :
  Request → Remote → (JsError + gmap string (list Item)) * Remote.
Variable this : CollibraClient.
Variables (endpoint : string) (ps : Params) (itemsKey : string).

Abbreviation body := (fetchAllPages_body axios_get this endpoint ps itemsKey).
Abbreviation while := (fetchAllPages_while axios_get this).
Abbreviation request_at off :=
  (makeRequest axios_get this endpoint (page_params ps off)).

Lemma makeRequest_network (ep : string) (ps0 : Params) (w w1 : World Remote)
    (c : Completion (gmap string (list Item))) :
  makeRequest axios_get this ep ps0 w = (c, w1) →
  network w1 = network w ++ [request_of this ep ps0].
Proof.
  unfold makeRequest. destruct (axios_get _ _) as [[e|b] r']; intros [= <- <-]; done.
Qed.

Lemma makeRequest_completes (ep : string) (ps0 : Params) (w : World Remote) :
  (makeRequest axios_get this ep ps0 w).1 ≠ OutOfFuel.
Proof.
  unfold makeRequest. by destruct (axios_get _ _) as [[e|b] r'].
Qed.

(** An iteration whose request throws ends the loop with that error. *)
Lemma while_threw (fuel : nat) (st : PageLoop) (w w1 : World Remote) (e : JsError) :
  hasMore st = true →
  request_at (offset st) w = (Threw e, w1) →
  while (S fuel) endpoint ps itemsKey st w = (Threw e, w1).
Proof.
  intros Hmore Hreq. simpl. rewrite Hmore.
  unfold fetchAllPages_body. js_unfold. by rewrite Hreq.
Qed.

(** An iteration that receives a short page is the last one. *)
Lemma while_short (fuel : nat) (st : PageLoop) (w w1 : World Remote)
    (resp : gmap string (list Item)) :
  hasMore st = true →
  request_at (offset st) w = (Returned resp, w1) →
  length (default [] (resp !! itemsKey)) ≠ limit →
  while (S (S fuel)) endpoint ps itemsKey st w
  = (Returned (allResults st ++ default [] (resp !! itemsKey)), w1).
Proof.
  intros Hmore Hreq Hlen. simpl. rewrite Hmore.
  unfold fetchAllPages_body. js_unfold. rewrite Hreq.
  rewrite bool_decide_eq_false_2 by done. done.
Qed.

(** An iteration that receives a full page logs the progress and goes on
    with the next offset. *)
Lemma while_full (fuel : nat) (st : PageLoop) (w w1 : World Remote)
    (resp : gmap string (list Item)) :
  hasMore st = true →
  request_at (offset st) w = (Returned resp, w1) →
  length (default [] (resp !! itemsKey)) = limit →
  while (S fuel) endpoint ps itemsKey st w
  = while fuel endpoint ps itemsKey
      {| allResults := allResults st ++ default [] (resp !! itemsKey);
         offset := offset st + limit; hasMore := true |}
      {| remote := remote w1; network := network w1;
         console := console w1 ++
           [FetchedContinuing
              (length (allResults st ++ default [] (resp !! itemsKey)))] |}.
Proof.
  intros Hmore Hreq Hlen. simpl. rewrite Hmore.
  unfold fetchAllPages_body. js_unfold. rewrite Hreq.
  rewrite bool_decide_eq_true_2 by done. done.
Qed.

Lemma full_pages_hasMore (n : nat) (st0 st : PageLoop) (w0 w : World Remote) :
  hasMore st0 = true →
  full_pages axios_get this endpoint ps itemsKey n st0 w0 = Some (st, w) →
  hasMore st = true.
Proof.
  revert st0 w0. induction n as [|n IH]; intros st0 w0 Hmore; simpl.
  - by intros [= <- <-].
  - rewrite Hmore. destruct (body st0 w0) as [[st'| |] w']; try done.
    destruct (hasMore st') eqn:Hmore'; [|done]. by apply IH.
Qed.

Lemma while_full_pages (n fuel : nat) (st0 st : PageLoop) (w0 w : World Remote) :
  full_pages axios_get this endpoint ps itemsKey n st0 w0 = Some (st, w) →
  while (n + fuel) endpoint ps itemsKey st0 w0
  = while fuel endpoint ps itemsKey st w.
Proof.
  revert st0 w0. induction n as [|n IH]; intros st0 w0; simpl.
  - by intros [= <- <-].
  - destruct (hasMore st0); [|done]. js_unfold.
    destruct (body st0 w0) as [[st'| |] w']; try done.
    destruct (hasMore st'); [|done]. apply IH.
Qed.

(** C6. If an iteration of the loop of [fetchAllPages] receives a page
    with strictly fewer items than the page size, after any number [n] of
    full pages and in particular as the very first page ([n = 0]), also
    when that page is empty, then the fetch returns right after it: the
    result is what was accumulated followed by the items of the short
    page, and the request of that page is the last one sent. *)
Theorem short_page_ends_pagination (n fuel : nat) (st : PageLoop)
    (w0 w w1 : World Remote) (resp : gmap string (list Item)) :
  full_pages axios_get this endpoint ps itemsKey n first_page w0 = Some (st, w) →
  request_at (offset st) w = (Returned resp, w1) →
  length (default [] (resp !! itemsKey)) < limit →
  fetchAllPages axios_get this (n + S (S fuel)) endpoint ps itemsKey w0
  = (Returned (allResults st ++ default [] (resp !! itemsKey)), w1)
  ∧ network w1
    = network w ++ [request_of this endpoint (page_params ps (offset st))]
  ∧ console w1 = console w.
Proof.
  intros Hrun Hreq Hlen.
  assert (hasMore st = true) as Hmore
    by (eapply full_pages_hasMore; [|exact Hrun]; done).
  split; [|split].
  - unfold fetchAllPages. fold (@first_page Item).
    rewrite (while_full_pages _ _ _ _ _ _ Hrun).
    apply while_short; [done..|lia].
  - by eapply makeRequest_network.
  - revert Hreq. unfold makeRequest.
    destruct (axios_get _ _) as [[e|b] r']; [done|]. by intros [= _ <-].
Qed.

(** C7. If a request of [fetchAllPages] throws, as the first one or
    after any number [n] of full pages, the fetch throws that same error:
    nothing is returned of the [allResults] accumulated so far, and the
    failed request is the last one sent, so the page is neither tried
    again nor skipped. *)
Theorem request_failure_aborts_fetch (n fuel : nat) (st : PageLoop)
    (w0 w w1 : World Remote) (e : JsError) :
  full_pages axios_get this endpoint ps itemsKey n first_page w0 = Some (st, w) →
  request_at (offset st) w = (Threw e, w1) →
  fetchAllPages axios_get this (n + S fuel) endpoint ps itemsKey w0
  = (Threw e, w1)
  ∧ network w1
    = network w ++ [request_of this endpoint (page_params ps (offset st))].
Proof.
  intros Hrun Hreq.
  assert (hasMore st = true) as Hmore
    by (eapply full_pages_hasMore; [|exact Hrun]; done).
  split.
  - unfold fetchAllPages. fold (@first_page Item).
    rewrite (while_full_pages _ _ _ _ _ _ Hrun).
    by apply while_threw.
  - by eapply makeRequest_network.
Qed.

(** The loop from a state that holds the items before its offset, when
    [k] full pages and then a short one remain. *)
Lemma while_serves (items : list Item) (k fuel : nat) (st : PageLoop)
    (w : World Remote) :
  serves axios_get this endpoint ps itemsKey items →
  hasMore st = true →
  allResults st ++ drop (offset st) items = items →
  k * limit ≤ length items - offset st →
  length items - offset st < S k * limit →
  ∃ w1, while (k + 2 + fuel) endpoint ps itemsKey st w = (Returned items, w1)
        ∧ length (network w1) = length (network w) + k + 1.
Proof.
  intros Hserves. revert st w.
  induction k as [|k IH]; intros st w Hmore Hinv Hlo Hhi.
  - destruct (Hserves (offset st) (remote w)) as (body & r' & Hget & Hpage).
    assert (request_at (offset st) w
            = (Returned body, {| remote := r';
                 network := network w ++
                   [request_of this endpoint (page_params ps (offset st))];
                 console := console w |})) as Hreq
      by (unfold makeRequest; by rewrite Hget).
    assert (take limit (drop (offset st) items) = drop (offset st) items) as Hall
      by (apply take_ge; rewrite length_drop; lia).
    eexists. split.
    + change (0 + 2 + fuel) with (S (S fuel)).
      erewrite while_short; [| done | exact Hreq |].
      * by rewrite Hpage, Hall, Hinv.
      * rewrite Hpage, Hall, length_drop. lia.
    + simpl. rewrite length_app. simpl. lia.
  - destruct (Hserves (offset st) (remote w)) as (body & r' & Hget & Hpage).
    assert (request_at (offset st) w
            = (Returned body, {| remote := r';
                 network := network w ++
                   [request_of this endpoint (page_params ps (offset st))];
                 console := console w |})) as Hreq
      by (unfold makeRequest; by rewrite Hget).
    rewrite !Nat.mul_succ_l in *.
    assert (length (default [] (body !! itemsKey)) = limit) as Hfull
      by (rewrite Hpage, length_take, length_drop; lia).
    change (S k + 2 + fuel) with (S (k + 2 + fuel)).
    erewrite while_full; [| done | exact Hreq | exact Hfull].
    edestruct (IH
      {| allResults := allResults st ++ default [] (body !! itemsKey);
         offset := offset st + limit; hasMore := true |}) as (w1 & Hrun & Hnet);
      [done | | | | eexists; split; [exact Hrun|]].
    + simpl. rewrite Hpage, <- (assoc_L (++)), <- drop_drop, take_drop. done.
    + simpl. lia.
    + simpl in *. lia.
    + rewrite Hnet. simpl. rewrite length_app. simpl. lia.
Qed.

(** C2. When the service holds [N] items behind the endpoint and
    honours [offset] and [limit], so that they come in pages of at most
    [limit] items, [fetchAllPages] returns exactly those items in their
    order, whatever [N mod limit] is ([N = 0] and [N] a multiple of the
    page size included), after [N / limit + 1] requests. *)
Theorem fetchAllPages_complete (items : list Item) (fuel : nat)
    (w : World Remote) :
  serves axios_get this endpoint ps itemsKey items →
  length items / limit + 2 ≤ fuel →
  ∃ w1, fetchAllPages axios_get this fuel endpoint ps itemsKey w
        = (Returned items, w1)
        ∧ length (network w1) = length (network w) + length items / limit + 1.
Proof.
  intros Hserves Hfuel.
  pose proof limit_pos as Hpos.
  replace fuel with (length items / limit + 2 + (fuel - length items / limit - 2))
    by lia.
  pose proof (Nat.Div0.mul_div_le (length items) limit) as Hlo.
  pose proof (Nat.mul_succ_div_gt (length items) limit ltac:(lia)) as Hhi.
  unfold fetchAllPages. apply while_serves; cbn [offset allResults hasMore];
    [done | done | done | lia | lia].
Qed.
End PaginationFacts.

(** The stateless paged service is one that [serves] its items. *)
Lemma paged_get_serves {Item : Type} (items : list Item) (this : CollibraClient)
    (endpoint : string) (ps : Params) :
  serves (paged_get items) this endpoint ps "results" items.
Proof.
  intros off []. eexists _, (). split; [reflexivity|].
  rewrite lookup_singleton_eq. simpl. unfold num_param, page_params.
  rewrite lookup_insert_eq, lookup_insert_ne by done.
  by rewrite lookup_insert_eq, !Nat2Z.id.
Qed.

Lemma fetchAllPages_complete_witness :
  serves (paged_get (seq 0 2000)) example_client "/assets" ∅ "results" (seq 0 2000)
  ∧ length (seq 0 2000) / limit + 2 ≤ 4
  ∧ ∃ w1, fetchAllPages (paged_get (seq 0 2000)) example_client 4 "/assets" ∅
            "results" (quiet ())
          = (Returned (seq 0 2000), w1)
          ∧ length (network w1) = 0 + length (seq 0 2000) / limit + 1.
Proof.
  assert (length (seq 0 2000) / limit + 2 ≤ 4) as Hfuel by (vm_compute; lia).
  split; [apply paged_get_serves|]. split; [exact Hfuel|].
  apply (fetchAllPages_complete (paged_get (seq 0 2000)) example_client
           "/assets" ∅ "results" (seq 0 2000) 4 (quiet ()));
    [apply paged_get_serves | exact Hfuel].
Defined.

(** An empty first page, and a short page after one full page. *)
Lemma short_page_ends_pagination_witness :
  fetchAllPages (paged_get (@nil nat)) example_client 2 "/communities" ∅
    "results" (quiet ())
  = (Returned [],
     {| remote := ();
        network := [request_of example_client "/communities" (page_params ∅ 0)];
        console := [] |})
  ∧ fetchAllPages (paged_get (seq 0 1003)) example_client 3 "/communities" ∅
      "results" (quiet ())
    = (Returned (seq 0 1003),
       {| remote := ();
          network := [request_of example_client "/communities" (page_params ∅ 0);
                      request_of example_client "/communities" (page_params ∅ 1000)];
          console := [FetchedContinuing 1000] |}).
Proof.
  split.
  - refine (proj1 (short_page_ends_pagination (paged_get (@nil nat))
      example_client "/communities" ∅ "results" 0 0 first_page (quiet ())
      (quiet ()) _ {[ "results" := [] ]} _ _ _));
      [reflexivity | reflexivity | vm_compute; lia].
  - refine (proj1 (short_page_ends_pagination (paged_get (seq 0 1003))
      example_client "/communities" ∅ "results" 1 0
      {| allResults := seq 0 1000; offset := 1000; hasMore := true |}
      (quiet ())
      {| remote := ();
         network := [request_of example_client "/communities" (page_params ∅ 0)];
         console := [FetchedContinuing 1000] |}
      _ {[ "results" := seq 1000 3 ]} _ _ _));
      [vm_compute; reflexivity | vm_compute; reflexivity | vm_compute; lia].
Defined.

(** The second request fails after one full page. *)
Lemma request_failure_aborts_fetch_witness :
  fetchAllPages (flaky_get (seq 0 2500) 1 unavailable) example_client 2
    "/assets" ∅ "results" (quiet 0)
  = (Threw unavailable,
     {| remote := 2;
        network := [request_of example_client "/assets" (page_params ∅ 0);
                    request_of example_client "/assets" (page_params ∅ 1000)];
        console := [FetchedContinuing 1000;
                    ApiRequestFailed "/assets" "Request failed with status code 503";
                    ErrStatus 503;
                    ErrURL "https://acme.collibra.com/rest/2.0/assets";
                    ErrResponseData "Service Unavailable"] |}).
Proof.
  refine (proj1 (request_failure_aborts_fetch (flaky_get (seq 0 2500) 1 unavailable)
    example_client "/assets" ∅ "results" 1 0
    {| allResults := seq 0 1000; offset := 1000; hasMore := true |}
    (quiet 0)
    {| remote := 1;
       network := [request_of example_client "/assets" (page_params ∅ 0)];
       console := [FetchedContinuing 1000] |}
    _ unavailable _ _));
    [vm_compute; reflexivity | vm_compute; reflexivity].
Defined.

(** ** Descendant resolution *)

Lemma is_child_of_true (x : string) (c : Community) :
  is_child_of x c = true ↔ parent c = Some {| parent_id := x |}.
Proof.
  unfold is_child_of. destruct (parent c) as [[q]|]; simpl.
  - rewrite bool_decide_eq_true. split; [by intros ->|by intros [= ->]].
  - split; done.
Qed.

(** A function whose images on a list are all different is injective on
    the list. *)
Lemma NoDup_fmap_inj_on {A B : Type} (f : A → B) (l : list A) (x y : A) :
  NoDup (f <$> l) → x ∈ l → y ∈ l → f x = f y → x = y.
Proof.
  induction l as [|a l IH]; simpl.
  - intros _ Hx. by apply elem_of_nil in Hx.
  - rewrite NoDup_cons. intros [Ha Hl] Hx Hy Hf.
    apply elem_of_cons in Hx as [Hx|Hx]; apply elem_of_cons in Hy as [Hy|Hy].
    + congruence.
    + destruct Ha. subst a. rewrite Hf. by apply list_elem_of_fmap_2.
    + destruct Ha. subst a. rewrite <- Hf. by apply list_elem_of_fmap_2.
    + by apply IH.
Qed.

(** The last step of a transitive chain. *)
Lemma tc_target {A : Type} (R : relation A) (x y : A) :
  tc R x y → ∃ p, R p y.
Proof. induction 1 as [x y Hxy|x y z Hxy Hyz IH]; [by exists x|done]. Qed.

Section DescendantFacts.
Variable communities : list Community.

Abbreviation fd fuel := (findDescendants fuel communities).
Abbreviation visit fuel x :=
  (λ (acc : option (list Community)) (comm : Community),
     descendants ← acc;
     if is_child_of x comm then
       children ← findDescendants fuel communities (id comm);
       Some (descendants ++ [comm] ++ children)
     else Some descendants).

Lemma visit_None (fuel : nat) (x : string) (cs : list Community) :
  foldl (visit fuel x) None cs = None.
Proof. induction cs as [|c cs IH]; [done|]. simpl. apply IH. Qed.

(** The loop returns when every recursive call does, and then it has
    appended the blocks of the children. *)
Lemma visit_Some (fuel : nat) (x : string) (cs acc out : list Community) :
  foldl (visit fuel x) (Some acc) cs = Some out ↔
  ∃ rest, out = acc ++ rest ∧ blocks communities fuel x cs rest.
Proof.
  revert acc. induction cs as [|c cs IH]; intros acc; simpl.
  - split.
    + intros [= <-]. exists []. by rewrite app_nil_r; split; [|constructor].
    + intros (rest & -> & Hb). inversion Hb. by rewrite app_nil_r.
  - destruct (is_child_of x c) eqn:Hc.
    + destruct (findDescendants fuel communities (id c)) as [sub|] eqn:Hsub; simpl.
      * rewrite IH. split.
        -- intros (rest & -> & Hb). exists (c :: sub ++ rest). split.
           ++ by rewrite <- !(assoc_L (++)).
           ++ by constructor.
        -- intros (rest & -> & Hb). inversion Hb; subst; [congruence|].
           match goal with H : findDescendants _ _ _ = Some _ |- _ =>
             rewrite Hsub in H; injection H as <- end.
           eexists. split; [|done]. by rewrite <- !(assoc_L (++)).
      * rewrite visit_None. split; [done|].
        intros (rest & -> & Hb). inversion Hb; subst; congruence.
    + rewrite IH. split.
      * intros (rest & -> & Hb). exists rest. split; [done|]. by constructor.
      * intros (rest & -> & Hb). inversion Hb; subst; [|congruence].
        by exists rest.
Qed.

Lemma fd_Some (fuel : nat) (x : string) (out : list Community) :
  fd (S fuel) x = Some out ↔ blocks communities fuel x communities out.
Proof.
  simpl. rewrite visit_Some. split.
  - by intros (rest & -> & Hb).
  - intros Hb. by exists out.
Qed.

(** The loop exceeds the stack exactly when the call on some child does. *)
Lemma visit_out_of_fuel (fuel : nat) (x : string) (cs acc : list Community) :
  foldl (visit fuel x) (Some acc) cs = None ↔
  ∃ c, c ∈ cs ∧ is_child_of x c = true ∧ fd fuel (id c) = None.
Proof.
  revert acc. induction cs as [|c cs IH]; intros acc; simpl.
  - split; [done|]. intros (c & Hc & _). by apply elem_of_nil in Hc.
  - destruct (is_child_of x c) eqn:Hc.
    + destruct (findDescendants fuel communities (id c)) as [sub|] eqn:Hsub; simpl.
      * rewrite IH. split.
        -- intros (c' & Hin & H). exists c'. split; [by right|done].
        -- intros (c' & Hin & Hc' & Hnone).
           apply elem_of_cons in Hin as [->|Hin]; [congruence|]. by exists c'.
      * rewrite visit_None. split; [|done]. intros _. exists c.
        split; [by left|done].
    + rewrite IH. split.
      * intros (c' & Hin & H). exists c'. split; [by right|done].
      * intros (c' & Hin & Hc' & Hnone).
        apply elem_of_cons in Hin as [->|Hin]; [congruence|]. by exists c'.
Qed.

Lemma fd_None (fuel : nat) (x : string) :
  fd (S fuel) x = None ↔
  ∃ c, c ∈ communities ∧ is_child_of x c = true ∧ fd fuel (id c) = None.
Proof. apply visit_out_of_fuel. Qed.

(** *** Membership *)

Lemma child_link (x : string) (c : Community) :
  child_of communities x c → link communities x (id c).
Proof. intros Hc. by exists c. Qed.

Lemma descendant_child (x : string) (c : Community) :
  child_of communities x c → descendant communities x c.
Proof. intros Hc. by exists x. Qed.

Lemma descendant_below (x : string) (c d : Community) :
  child_of communities x c → descendant communities (id c) d →
  descendant communities x d.
Proof.
  intros Hc (p & Hp & Hd). exists p. split; [|done].
  eapply rtc_l; [by apply child_link|done].
Qed.

(** What a pass over [cs] appends lies under a child that [cs] holds. *)
Lemma blocks_elem_of (fuel : nat) (x : string) (cs out : list Community)
    (d : Community) :
  (∀ y sub, fd fuel y = Some sub → ∀ c, c ∈ sub → descendant communities y c) →
  cs ⊆ communities →
  blocks communities fuel x cs out → d ∈ out →
  ∃ c, c ∈ cs ∧ child_of communities x c
       ∧ (d = c ∨ descendant communities (id c) d).
Proof.
  intros IHfuel Hsub Hb. revert Hsub.
  induction Hb as [|c cs out Hc Hb IH|c cs sub out Hc Hrec Hb IH];
    intros Hsub Hd.
  - by apply elem_of_nil in Hd.
  - destruct IH as (c' & Hin & H); [set_solver|done|].
    exists c'. split; [by right|done].
  - apply elem_of_cons in Hd as [->|Hd];
      [|apply elem_of_app in Hd as [Hd|Hd]].
    + exists c. split; [by left|]. split; [|by left].
      split; [set_solver|by apply is_child_of_true].
    + exists c. split; [by left|]. split; [|right; by eapply IHfuel].
      split; [set_solver|by apply is_child_of_true].
    + destruct IH as (c' & Hin & H); [set_solver|done|].
      exists c'. split; [by right|done].
Qed.

(** Everything returned is a descendant. *)
Lemma fd_sound (fuel : nat) (x : string) (out : list Community) (d : Community) :
  fd fuel x = Some out → d ∈ out → descendant communities x d.
Proof.
  revert x out d. induction fuel as [|fuel IH]; intros x out d; [done|].
  rewrite fd_Some. intros Hb Hd.
  destruct (blocks_elem_of fuel x communities out d) as (c & _ & Hc & [->|H]);
    [intros y sub Hy c' Hc'; by eapply IH|done|done|done|by apply descendant_child|].
  by eapply descendant_below.
Qed.

(** A child that a pass meets is appended together with the result of
    the recursive call on it. *)
Lemma blocks_child_inv (fuel : nat) (x : string) (cs out : list Community)
    (c : Community) :
  blocks communities fuel x cs out → c ∈ cs → is_child_of x c = true →
  c ∈ out ∧ ∃ sub, fd fuel (id c) = Some sub ∧ sub ⊆ out.
Proof.
  induction 1 as [|c' cs out Hc' Hb IH|c' cs sub out Hc' Hrec Hb IH];
    intros Hin Hc.
  - by apply elem_of_nil in Hin.
  - apply elem_of_cons in Hin as [->|Hin]; [congruence|]. by apply IH.
  - apply elem_of_cons in Hin as [->|Hin].
    + split; [by left|]. exists sub. split; [done|].
      intros d Hd. right. apply elem_of_app. by left.
    + destruct IH as (Hcout & sub' & Hsub' & Hincl); [done..|].
      split; [set_solver|]. exists sub'. split; [done|]. set_solver.
Qed.

(** Every descendant is returned. *)
Lemma fd_complete (x : string) (d : Community) :
  descendant communities x d →
  ∀ fuel out, fd fuel x = Some out → d ∈ out.
Proof.
  intros (p & Hp & Hd). induction Hp as [x|x y p Hxy Hyp IH];
    intros [|fuel] out; try done; rewrite fd_Some; intros Hb.
  - destruct Hd as [Hin Hpar].
    by apply (blocks_child_inv fuel x communities out d Hb Hin),
      is_child_of_true.
  - destruct Hxy as (c & [Hin Hpar] & <-).
    destruct (blocks_child_inv fuel x communities out c Hb Hin)
      as (_ & sub & Hsub & Hincl); [by apply is_child_of_true|].
    apply Hincl. by eapply IH.
Qed.

(** *** Cycles *)

Lemma reaches_cycle_step (x : string) :
  reaches_cycle communities x →
  ∃ y, link communities x y ∧ reaches_cycle communities y.
Proof.
  intros (z & Hxz & Hz). destruct Hxz as [x|x y z Hxy Hyz].
  - unfold on_cycle in Hz. inversion Hz as [? ? Hxx|? y ? Hxy Hyx]; subst.
    + exists x. split; [done|]. by exists x.
    + exists y. split; [done|]. exists x. split; [by apply tc_rtc|done].
  - exists y. split; [done|]. by exists z.
Qed.

(** With a cycle in reach the calls nest beyond every stack. *)
Lemma fd_diverges (x : string) :
  reaches_cycle communities x → ∀ fuel, fd fuel x = None.
Proof.
  intros Hx fuel. revert x Hx. induction fuel as [|fuel IH]; intros x Hx; [done|].
  apply fd_None. destruct (reaches_cycle_step x Hx) as (y & (c & [Hin Hpar] & <-) & Hy).
  exists c. split; [done|]. split; [by apply is_child_of_true|by apply IH].
Qed.

(** *** Termination *)

Lemma fd_None_chain (fuel : nat) (x : string) :
  fd fuel x = None → ∃ path, length path = fuel ∧ chain communities x path.
Proof.
  revert x. induction fuel as [|fuel IH]; intros x.
  - intros _. by exists [].
  - rewrite fd_None. intros (c & Hin & Hc & Hnone).
    destruct (IH _ Hnone) as (path & Hlen & Hpath).
    exists (id c :: path). split; [by rewrite <- Hlen|]. split; [|done].
    exists c. split; [|done]. split; [done|by apply is_child_of_true].
Qed.

Lemma chain_tc (x y : string) (path : list string) :
  chain communities x path → y ∈ path → tc (link communities) x y.
Proof.
  revert x. induction path as [|z path IH]; intros x; simpl.
  - intros _ Hy. by apply elem_of_nil in Hy.
  - intros [Hxz Hpath] Hy. apply elem_of_cons in Hy as [->|Hy].
    + by apply tc_once.
    + eapply tc_l; [done|]. by apply IH.
Qed.

Lemma chain_ids (x : string) (path : list string) :
  chain communities x path → path ⊆ id <$> communities.
Proof.
  revert x. induction path as [|z path IH]; intros x; simpl.
  - intros _ y Hy. by apply elem_of_nil in Hy.
  - intros [(c & [Hin _] & <-) Hpath] y Hy.
    apply elem_of_cons in Hy as [->|Hy]; [by apply list_elem_of_fmap_2|].
    by eapply IH.
Qed.

Lemma chain_NoDup (x : string) (path : list string) :
  (∀ y, ¬ on_cycle communities y) → chain communities x path → NoDup path.
Proof.
  intros Hacyclic. revert x. induction path as [|z path IH]; intros x; simpl.
  - intros _. constructor.
  - intros [_ Hpath]. constructor; [|by eapply IH].
    intros Hz. apply (Hacyclic z). by eapply chain_tc.
Qed.

(** Without cycles the nesting of the calls stays within the length of
    the listing. *)
Lemma fd_terminates (fuel : nat) (x : string) :
  (∀ y, ¬ on_cycle communities y) →
  length communities < fuel → is_Some (fd fuel x).
Proof.
  intros Hacyclic Hfuel. destruct (fd fuel x) as [out|] eqn:Hfd; [done|].
  destruct (fd_None_chain _ _ Hfd) as (path & Hlen & Hpath).
  pose proof (chain_NoDup _ _ Hacyclic Hpath) as Hnodup.
  pose proof (chain_ids _ _ Hpath) as Hids.
  apply (NoDup_submseteq _ _ Hnodup), submseteq_length in Hids.
  rewrite length_fmap in Hids. lia.
Qed.

(** *** The order of the result *)

Lemma parents_first_mono (seen seen' : list string) (out : list Community) :
  seen ⊆ seen' → parents_first seen out → parents_first seen' out.
Proof.
  revert seen seen'. induction out as [|c out IH]; intros seen seen' Hsub; [done|].
  simpl. intros [(q & Hq & Hpar) Hout]. split.
  - exists q. split; [by apply Hsub|done].
  - apply (IH (id c :: seen)); [|done].
    intros y Hy. apply elem_of_cons in Hy as [->|Hy]; [by left|].
    right. by apply Hsub.
Qed.

Lemma parents_first_app (seen : list string) (l1 l2 : list Community) :
  parents_first seen l1 → parents_first seen l2 → parents_first seen (l1 ++ l2).
Proof.
  revert seen. induction l1 as [|c l1 IH]; intros seen; [done|].
  simpl. intros [Hc Hl1] Hl2. split; [done|]. apply IH; [done|].
  apply (parents_first_mono seen); [|done]. intros y Hy. by right.
Qed.

Lemma blocks_parents_first (fuel : nat) (x : string) (cs out : list Community) :
  (∀ y sub, fd fuel y = Some sub → parents_first [y] sub) →
  blocks communities fuel x cs out → parents_first [x] out.
Proof.
  intros IHfuel. induction 1 as [| |c cs sub out Hc Hrec Hb IH]; [done..|].
  simpl. split.
  - exists x. split; [by left|by apply is_child_of_true].
  - apply parents_first_app.
    + apply (parents_first_mono [id c]); [|by apply IHfuel].
      intros y Hy. apply list_elem_of_singleton in Hy as ->. by left.
    + apply (parents_first_mono [x]); [|done]. intros y Hy. by right.
Qed.

(** Whatever the listing, a returned community comes after the one its
    parent reference names, unless that is the root. *)
Lemma fd_parents_first (fuel : nat) (x : string) (out : list Community) :
  fd fuel x = Some out → parents_first [x] out.
Proof.
  revert x out. induction fuel as [|fuel IH]; intros x out; [done|].
  rewrite fd_Some. by apply blocks_parents_first.
Qed.

Lemma parents_first_lookup (seen : list string) (out : list Community)
    (i : nat) (c : Community) :
  parents_first seen out → out !! i = Some c →
  ∃ q, parent c = Some {| parent_id := q |}
       ∧ (q ∈ seen ∨ ∃ j p, j < i ∧ out !! j = Some p ∧ id p = q).
Proof.
  revert seen i. induction out as [|c0 out IH]; intros seen i; [done|].
  simpl. intros [(q & Hq & Hpar) Hout]. destruct i as [|i]; simpl.
  - intros [= <-]. exists q. split; [done|by left].
  - intros Hi. destruct (IH _ _ Hout Hi) as (q' & Hpar' & Hq').
    exists q'. split; [done|].
    destruct Hq' as [Hq'|(j & p & Hj & Hp & Hid)].
    + apply elem_of_cons in Hq' as [->|Hq']; [|by left].
      right. exists 0, c0. split; [lia|done].
    + right. exists (S j), p. split; [lia|done].
Qed.

(** *** Forests *)

Section Forest.
Hypothesis Hforest : forest communities.

Lemma forest_NoDup : NoDup communities.
Proof. destruct Hforest as [Hids _]. by eapply NoDup_fmap_1. Qed.

Lemma forest_id_inj (c c' : Community) :
  c ∈ communities → c' ∈ communities → id c = id c' → c = c'.
Proof. destruct Hforest as [Hids _]. by apply NoDup_fmap_inj_on. Qed.

Lemma link_parent_unique (p p' q : string) :
  link communities p q → link communities p' q → p = p'.
Proof.
  intros (c & [Hin Hpar] & Hid) (c' & [Hin' Hpar'] & Hid').
  assert (c = c') as -> by (apply forest_id_inj; congruence).
  congruence.
Qed.

(** The ancestors of an identifier lie on one chain. *)
Lemma ancestors_chain (a b p : string) :
  rtc (link communities) a p → rtc (link communities) b p →
  rtc (link communities) a b ∨ rtc (link communities) b a.
Proof.
  intros Ha. revert b. pattern p. revert p Ha. apply rtc_ind_r.
  - by right.
  - intros p' p Hap' Hp'p IH b Hb.
    apply rtc_inv_r in Hb as [->|(p'' & Hb & Hp''p)].
    + left. by eapply rtc_r.
    + rewrite <- (link_parent_unique _ _ _ Hp'p Hp''p) in Hb. by apply IH.
Qed.

Lemma child_cycle (x : string) (c : Community) :
  child_of communities x c → ¬ rtc (link communities) (id c) x.
Proof.
  intros Hc Hback. destruct Hforest as [_ Hacyclic]. apply (Hacyclic x).
  eapply tc_rtc_r; [|done]. by apply tc_once, child_link.
Qed.

Lemma descendant_reaches (c d : Community) :
  d = c ∨ descendant communities (id c) d →
  rtc (link communities) (id c) (id d).
Proof.
  intros [->|(p & Hp & Hd)]; [done|].
  eapply rtc_r; [done|by apply child_link].
Qed.

(** A community lies under at most one child of [x]. *)
Lemma same_branch (x : string) (c1 c2 d : Community) :
  child_of communities x c1 → child_of communities x c2 →
  d = c1 ∨ descendant communities (id c1) d →
  d = c2 ∨ descendant communities (id c2) d →
  c1 = c2.
Proof.
  intros Hc1 Hc2 Hd1%descendant_reaches Hd2%descendant_reaches.
  assert (∀ c c', child_of communities x c → child_of communities x c' →
            rtc (link communities) (id c) (id c') → c = c') as Hup.
  { intros c c' Hc Hc' Hcc'.
    apply rtc_inv_r in Hcc' as [Hid|(q & Hq & Hlink)].
    - apply forest_id_inj; [apply Hc|apply Hc'|done].
    - rewrite (link_parent_unique _ _ _ Hlink (child_link _ _ Hc')) in Hq.
      by destruct (child_cycle x c Hc). }
  destruct (ancestors_chain _ _ _ Hd1 Hd2); [|symmetry]; by apply Hup.
Qed.

Lemma blocks_NoDup (fuel : nat) (x : string) (cs out : list Community) :
  (∀ y sub, fd fuel y = Some sub → NoDup sub) →
  NoDup cs → cs ⊆ communities →
  blocks communities fuel x cs out → NoDup out.
Proof.
  intros IHfuel Hcs Hsub Hb. revert Hcs Hsub.
  induction Hb as [|c cs out Hc Hb IH|c cs sub out Hc Hrec Hb IH];
    intros Hcs Hsub.
  - constructor.
  - apply IH; [by apply NoDup_cons in Hcs as [_ ?]|].
    intros y Hy. apply Hsub. by right.
  - apply NoDup_cons in Hcs as [Hc_cs Hcs].
    assert (cs ⊆ communities) as Hsub' by (intros y Hy; apply Hsub; by right).
    assert (child_of communities x c) as Hchild.
    { split; [apply Hsub; by left|by apply is_child_of_true]. }
    assert (∀ d, d = c ∨ d ∈ sub → d ∉ out) as Hdisjoint.
    { intros d Hd Hout.
      destruct (blocks_elem_of fuel x cs out d) as (c' & Hin & Hc' & Hunder);
        [intros y s Hy e He; by eapply fd_sound|done..|].
      assert (c = c') as ->; [|done].
      apply (same_branch x c c' d); [done|done| |done].
      destruct Hd as [->|Hd]; [by left|right; by eapply fd_sound]. }
    apply NoDup_cons. split.
    + intros Hin. apply elem_of_app in Hin as [Hin|Hin].
      * destruct (fd_sound _ _ _ _ Hrec Hin) as (p & Hp & [_ Hpar]).
        pose proof Hchild as [_ Hpar']. rewrite Hpar' in Hpar.
        injection Hpar as <-. exact (child_cycle x c Hchild Hp).
      * by apply (Hdisjoint c); [left|].
    + apply NoDup_app. split; [by eapply IHfuel|]. split; [|by apply IH].
      intros d Hd. apply Hdisjoint. by right.
Qed.

(** In a forest nothing is returned twice. *)
Lemma fd_NoDup (fuel : nat) (x : string) (out : list Community) :
  fd fuel x = Some out → NoDup out.
Proof.
  revert x out. induction fuel as [|fuel IH]; intros x out; [done|].
  rewrite fd_Some. apply blocks_NoDup; [exact IH|exact forest_NoDup|done].
Qed.
End Forest.

Lemma descendant_listed (x : string) (c : Community) :
  descendant communities x c → c ∈ communities.
Proof. by intros (p & _ & [Hin _]). Qed.

(** A descendant with the identifier of the root closes a cycle. *)
Lemma descendant_root_cycle (x : string) (c : Community) :
  descendant communities x c → id c = x → on_cycle communities x.
Proof.
  intros (p & Hp & Hc) Hid. eapply tc_rtc_l; [done|].
  apply tc_once. rewrite <- Hid. by apply child_link.
Qed.

Lemma fd_excludes_root (fuel : nat) (x : string) (out : list Community)
    (c : Community) :
  fd fuel x = Some out → c ∈ out → id c ≠ x.
Proof.
  intros Hfd Hc Hid.
  assert (reaches_cycle communities x) as Hcycle.
  { exists x. split; [done|].
    exact (descendant_root_cycle x c (fd_sound _ _ _ _ Hfd Hc) Hid). }
  by rewrite (fd_diverges x Hcycle fuel) in Hfd.
Qed.

Lemma forest_check_sound :
  forest_check communities = true → forest communities.
Proof.
  unfold forest_check. intros [Hids Hall]%andb_true_iff.
  apply bool_decide_eq_true in Hids. split; [done|].
  intros x Hx.
  destruct (tc_target _ _ _ Hx) as (p & c & [Hin _] & <-).
  rewrite forallb_forall in Hall.
  apply list_elem_of_In, Hall, bool_decide_eq_true in Hin.
  rewrite (fd_diverges (id c)) in Hin; [by destruct Hin|].
  by exists (id c).
Qed.

(** C3. On a listing that is a forest, [findDescendants] from any root
    identifier returns (at every depth bound above the length of the
    listing) exactly the communities that chains of parent references
    connect to the root, each of them once, and none of them before the
    community that its parent reference names. *)
Theorem findDescendants_closure (root : string) (fuel : nat) :
  forest communities → length communities < fuel →
  ∃ out, findDescendants fuel communities root = Some out
    ∧ (∀ c, c ∈ out ↔ descendant communities root c)
    ∧ NoDup out
    ∧ (∀ i j c p, out !! i = Some c → out !! j = Some p →
         parent c = Some {| parent_id := id p |} → j < i).
Proof.
  intros Hforest Hfuel.
  destruct (fd_terminates fuel root) as [out Hout]; [apply Hforest|done|].
  exists out. split; [done|]. split; [|split].
  - intros c. split; [by eapply fd_sound|]. intros Hc. by eapply fd_complete.
  - by eapply fd_NoDup.
  - intros i j c p Hi Hj Hpar.
    destruct (parents_first_lookup [root] out i c) as (q & Hq & Hwhere);
      [by eapply fd_parents_first|done|].
    rewrite Hpar in Hq. injection Hq as <-.
    assert (p ∈ out) as Hp by (by eapply list_elem_of_lookup_2).
    destruct Hwhere as [Hroot|(j' & p' & Hlt & Hj' & Hid)].
    + apply list_elem_of_singleton in Hroot.
      destruct Hforest as [_ Hacyclic]. destruct (Hacyclic root).
      exact (descendant_root_cycle root p (fd_sound _ _ _ _ Hout Hp) Hroot).
    + assert (p' = p) as ->.
      { apply (forest_id_inj Hforest); [| |done];
          eapply descendant_listed, fd_sound; try done.
        by eapply list_elem_of_lookup_2. }
      by rewrite (NoDup_lookup out j j' p (fd_NoDup Hforest _ _ _ Hout) Hj Hj').
Qed.
End DescendantFacts.

Example findDescendants_finance :
  findDescendants 7 finance_listing "c-fin"
  = Some [ sub "c-apac" "Finance APAC" "c-fin";
           sub "c-emea" "Finance EMEA" "c-fin";
           sub "c-acc" "Finance Accounting" "c-emea" ].
Proof. reflexivity. Qed.

Lemma finance_listing_forest : forest finance_listing.
Proof. apply forest_check_sound. vm_compute. reflexivity. Qed.

Lemma looped_listing_cycle : reaches_cycle looped_listing "c-a".
Proof.
  assert (link looped_listing "c-a" "c-b") as Hab.
  { exists (sub "c-b" "B" "c-a"). split; [|done]. split; [|done].
    apply list_elem_of_lookup_2 with 1. reflexivity. }
  assert (link looped_listing "c-b" "c-a") as Hba.
  { exists (sub "c-a" "A" "c-b"). split; [|done]. split; [|done].
    apply list_elem_of_lookup_2 with 0. reflexivity. }
  exists "c-a". split; [done|]. eapply tc_l; [exact Hab|by apply tc_once].
Qed.

Lemma findDescendants_closure_witness :
  forest finance_listing ∧ length finance_listing < 7
  ∧ ∃ out, findDescendants 7 finance_listing "c-fin" = Some out
      ∧ (∀ c, c ∈ out ↔ descendant finance_listing "c-fin" c)
      ∧ NoDup out
      ∧ (∀ i j c p, out !! i = Some c → out !! j = Some p →
           parent c = Some {| parent_id := id p |} → j < i).
Proof.
  assert (length finance_listing < 7) as Hfuel by (simpl; lia).
  split; [exact finance_listing_forest|]. split; [exact Hfuel|].
  exact (findDescendants_closure finance_listing "c-fin" 7
           finance_listing_forest Hfuel).
Defined.

(** ** The requests for communities *)

Lemma catalog_get_service (all : list Community) (this : CollibraClient) :
  catalog_service (catalog_get all) this all.
Proof.
  intros ps off lim [] Hoff Hlim. eexists _, (). split; [reflexivity|].
  rewrite lookup_singleton_eq. simpl. unfold num_param.
  by rewrite Hoff, Hlim, !Nat2Z.id.
Qed.

Section CommunityFacts.
Context {Remote : Type}.
Variable axios_get :
  Request → Remote → (JsError + gmap string (list Community)) * Remote.
Variable this : CollibraClient.

Lemma getAllSubcommunities_run (fuel : nat) (communityId : string)
    (w w1 : World Remote) (resp : gmap string (list Community)) :
  getCommunities axios_get this {[ "limit" := JNum 1000 ]} w = (Returned resp, w1) →
  getAllSubcommunities axios_get this fuel communityId w
  = (match findDescendants fuel (default [] (resp !! "results")) communityId with
     | Some subcommunities => Returned subcommunities
     | None => Threw range_error
     end, w1).
Proof.
  intros Hget. unfold getAllSubcommunities. js_unfold. rewrite Hget.
  by destruct (findDescendants _ _ _).
Qed.

(** Against a service that lists [all], [getAllSubcommunities] sends one
    request and resolves the descendants among the first [limit]
    communities only. *)
Lemma getAllSubcommunities_one_page (all : list Community) (fuel : nat)
    (communityId : string) (w : World Remote) :
  catalog_service axios_get this all →
  ∃ w1, getAllSubcommunities axios_get this fuel communityId w
        = (match findDescendants fuel (take limit all) communityId with
           | Some subcommunities => Returned subcommunities
           | None => Threw range_error
           end, w1)
        ∧ network w1 = network w ++ [request_of this "/communities" listing_params].
Proof.
  intros Hservice.
  destruct (Hservice listing_params 0 limit (remote w)) as (body & r' & Hget & Hpage);
    [done | by rewrite Z_of_limit |].
  change (selected listing_params all) with all in Hpage. rewrite drop_0 in Hpage.
  eexists. split.
  - erewrite getAllSubcommunities_run; [by rewrite Hpage|].
    unfold getCommunities, makeRequest. fold listing_params. by rewrite Hget.
  - done.
Qed.

(** C4. The descendants are resolved among the communities that the
    service has sent. When these form a forest, the nesting of the calls
    of [findDescendants] stays within their number, so that with room for
    that many calls on the call stack [getAllSubcommunities] returns.
    When a cycle of parent references can be reached from the given
    identifier, the calls nest until the call stack is used up, however
    large it is: [getAllSubcommunities] never returns a result then, it
    ends with the [RangeError] of the engine. Nothing in the code looks
    for the cycle. *)
Theorem descendant_resolution_ends (stack : nat) (communityId : string)
    (w w1 : World Remote) (resp : gmap string (list Community)) :
  getCommunities axios_get this {[ "limit" := JNum 1000 ]} w = (Returned resp, w1) →
  (forest (default [] (resp !! "results")) →
   length (default [] (resp !! "results")) < stack →
   ∃ out,
     findDescendants stack (default [] (resp !! "results")) communityId = Some out
     ∧ getAllSubcommunities axios_get this stack communityId w = (Returned out, w1))
  ∧ (reaches_cycle (default [] (resp !! "results")) communityId →
     findDescendants stack (default [] (resp !! "results")) communityId = None
     ∧ getAllSubcommunities axios_get this stack communityId w
       = (Threw range_error, w1)).
Proof.
  intros Hget.
  rewrite (getAllSubcommunities_run stack communityId w w1 resp Hget).
  split.
  - intros [_ Hacyclic] Hstack.
    destruct (fd_terminates _ stack communityId Hacyclic Hstack) as [out Hout].
    exists out. by rewrite Hout.
  - intros Hcycle. by rewrite (fd_diverges _ communityId Hcycle stack).
Qed.

(** C10. Whatever the listing, a result that [getAllSubcommunities]
    returns for a root identifier holds no community with that
    identifier, also when the listing has one. *)
Theorem getAllSubcommunities_strict (fuel : nat) (communityId : string)
    (w w1 : World Remote) (out : list Community) :
  getAllSubcommunities axios_get this fuel communityId w = (Returned out, w1) →
  ∀ c, c ∈ out → id c ≠ communityId.
Proof.
  intros Hrun c Hc.
  destruct (getCommunities axios_get this {[ "limit" := JNum 1000 ]} w)
    as [[resp|e|] w'] eqn:Hget.
  - rewrite (getAllSubcommunities_run fuel communityId w w' resp Hget) in Hrun.
    destruct (findDescendants fuel _ communityId) as [out'|] eqn:Hfd; [|done].
    injection Hrun as -> _. by eapply fd_excludes_root.
  - unfold getAllSubcommunities in Hrun. js_unfold. by rewrite Hget in Hrun.
  - unfold getAllSubcommunities in Hrun. js_unfold. by rewrite Hget in Hrun.
Qed.

(** C5. Against a service that lists [all] and honours the exact match
    of names, [getCommunityByName] returns the first community whose name
    is the given string, character for character; communities whose
    names only contain it do not count, and when no name is equal the
    result is [null], not an error. *)
Theorem getCommunityByName_exact (all : list Community) (n : string)
    (w : World Remote) :
  catalog_service axios_get this all →
  ∃ res w1, getCommunityByName axios_get this n w = (Returned res, w1)
    ∧ res = head (filter (λ c, name c = n) all)
    ∧ (∀ c, res = Some c → c ∈ all ∧ name c = n)
    ∧ (res = None ↔ ∀ c, c ∈ all → name c ≠ n).
Proof.
  intros Hservice.
  destruct (Hservice (name_params n) 0 limit (remote w))
    as (body & r' & Hget & Hpage); [done | by rewrite Z_of_limit |].
  change (selected (name_params n) all) with (filter (λ c, name c = n) all) in Hpage.
  rewrite drop_0 in Hpage.
  exists (head (filter (λ c, name c = n) all)). eexists. split; [|split; [done|split]].
  - unfold getCommunityByName, getCommunities, makeRequest. js_unfold.
    fold (name_params n). rewrite Hget, Hpage.
    pose proof limit_pos as Hpos.
    destruct limit as [|l]; [lia|].
    destruct (filter (λ c, name c = n) all) as [|c cs]; done.
  - intros c Hc. apply head_Some_elem_of in Hc.
    apply list_elem_of_filter in Hc as [Hname Hin]. done.
  - destruct (filter (λ c, name c = n) all) as [|c cs] eqn:Hfilter; simpl.
    + split; [|done]. intros _ c Hc Hname.
      assert (c ∈ filter (λ c, name c = n) all) as Hin
        by (by apply list_elem_of_filter).
      rewrite Hfilter in Hin. by apply elem_of_nil in Hin.
    + split; [done|]. intros Hnone.
      assert (c ∈ filter (λ c, name c = n) all) as Hin
        by (rewrite Hfilter; by left).
      apply list_elem_of_filter in Hin as [Hname Hin]. by destruct (Hnone c).
Qed.
End CommunityFacts.

Example getCommunityByName_finance :
  (getCommunityByName (catalog_get finance_listing) example_client "Finance"
     (quiet ())).1 = Returned (Some (top "c-fin" "Finance"))
  ∧ (getCommunityByName (catalog_get finance_listing) example_client "Fin"
       (quiet ())).1 = Returned None
  ∧ (getCommunityByName (catalog_get finance_listing) example_client "FINANCE"
       (quiet ())).1 = Returned None.
Proof. repeat split; vm_compute; reflexivity. Qed.

Lemma getCommunityByName_exact_witness :
  catalog_service (catalog_get finance_listing) example_client finance_listing
  ∧ ∃ res w1,
      getCommunityByName (catalog_get finance_listing) example_client "Finance"
        (quiet ()) = (Returned res, w1)
      ∧ res = head (filter (λ c, name c = "Finance") finance_listing)
      ∧ (∀ c, res = Some c → c ∈ finance_listing ∧ name c = "Finance")
      ∧ (res = None ↔ ∀ c, c ∈ finance_listing → name c ≠ "Finance").
Proof.
  split; [apply catalog_get_service|].
  exact (getCommunityByName_exact (catalog_get finance_listing) example_client
           finance_listing "Finance" (quiet ()) (catalog_get_service _ _)).
Defined.

Lemma getAllSubcommunities_strict_witness :
  getAllSubcommunities (catalog_get finance_listing) example_client 7 "c-fin"
    (quiet ())
  = (Returned [ sub "c-apac" "Finance APAC" "c-fin";
                sub "c-emea" "Finance EMEA" "c-fin";
                sub "c-acc" "Finance Accounting" "c-emea" ],
     {| remote := ();
        network := [request_of example_client "/communities" listing_params];
        console := [] |})
  ∧ ∀ c, c ∈ [ sub "c-apac" "Finance APAC" "c-fin";
               sub "c-emea" "Finance EMEA" "c-fin";
               sub "c-acc" "Finance Accounting" "c-emea" ] → id c ≠ "c-fin".
Proof.
  assert (getAllSubcommunities (catalog_get finance_listing) example_client 7
            "c-fin" (quiet ())
          = (Returned [ sub "c-apac" "Finance APAC" "c-fin";
                        sub "c-emea" "Finance EMEA" "c-fin";
                        sub "c-acc" "Finance Accounting" "c-emea" ],
             {| remote := ();
                network := [request_of example_client "/communities" listing_params];
                console := [] |})) as Hrun by (vm_compute; reflexivity).
  split; [exact Hrun|].
  exact (getAllSubcommunities_strict (catalog_get finance_listing) example_client
           7 "c-fin" (quiet ()) _ _ Hrun).
Defined.

(** C9. [getAllSubcommunities] asks for the communities with one request
    of [limit] entries, not through [fetchAllPages]. On the catalog
    [large_listing] of 1001 communities, which [fetchAllPages] fetches
    whole, the last child of "root" is a descendant of "root" in the
    catalog, and [getAllSubcommunities "root"] returns the 999 children of
    the first page without it. *)
Theorem getAllSubcommunities_misses_second_page :
  length large_listing = 1001
  ∧ (fetchAllPages (catalog_get large_listing) example_client 3 "/communities"
       defaultParams "results" (quiet ())).1
    = Returned large_listing
  ∧ descendant large_listing "root" (numbered 999)
  ∧ findDescendants 3 large_listing "root" = Some (numbered <$> seq 0 1000)
  ∧ getAllSubcommunities (catalog_get large_listing) example_client 3 "root"
      (quiet ())
    = (Returned (numbered <$> seq 0 999),
       {| remote := ();
          network := [request_of example_client "/communities" listing_params];
          console := [] |})
  ∧ numbered 999 ∉ numbered <$> seq 0 999.
Proof.
  split; [vm_compute; reflexivity|].
  split; [vm_compute; reflexivity|].
  split.
  { exists "root". split; [done|]. split; [|done].
    apply list_elem_of_lookup_2 with 1000. vm_compute. reflexivity. }
  split; [vm_compute; reflexivity|].
  split; [vm_compute; reflexivity|].
  intros Hin. apply list_elem_of_fmap in Hin as (i & Heq & Hi).
  apply elem_of_seq in Hi.
  assert (pretty 999 = pretty i) as Hp.
  { apply (f_equal id) in Heq. by injection Heq. }
  apply (inj pretty) in Hp. lia.
Qed.

Lemma descendant_resolution_ends_witness :
  (getCommunities (catalog_get finance_listing) example_client
     {[ "limit" := JNum 1000 ]} (quiet ())
   = (Returned {[ "results" := finance_listing ]},
      {| remote := ();
         network := [request_of example_client "/communities" listing_params];
         console := [] |})
   ∧ forest finance_listing ∧ length finance_listing < 7
   ∧ ∃ out,
       findDescendants 7 finance_listing "c-fin" = Some out
       ∧ getAllSubcommunities (catalog_get finance_listing) example_client 7
           "c-fin" (quiet ())
         = (Returned out,
            {| remote := ();
               network := [request_of example_client "/communities" listing_params];
               console := [] |}))
  ∧ (getCommunities (catalog_get looped_listing) example_client
       {[ "limit" := JNum 1000 ]} (quiet ())
     = (Returned {[ "results" := looped_listing ]},
        {| remote := ();
           network := [request_of example_client "/communities" listing_params];
           console := [] |})
     ∧ reaches_cycle looped_listing "c-a"
     ∧ findDescendants 4000 looped_listing "c-a" = None
     ∧ getAllSubcommunities (catalog_get looped_listing) example_client 4000
         "c-a" (quiet ())
       = (Threw range_error,
          {| remote := ();
             network := [request_of example_client "/communities" listing_params];
             console := [] |})).
Proof.
  assert (getCommunities (catalog_get finance_listing) example_client
            {[ "limit" := JNum 1000 ]} (quiet ())
          = (Returned {[ "results" := finance_listing ]},
             {| remote := ();
                network := [request_of example_client "/communities" listing_params];
                console := [] |})) as Hfinance by (vm_compute; reflexivity).
  assert (getCommunities (catalog_get looped_listing) example_client
            {[ "limit" := JNum 1000 ]} (quiet ())
          = (Returned {[ "results" := looped_listing ]},
             {| remote := ();
                network := [request_of example_client "/communities" listing_params];
                console := [] |})) as Hlooped by (vm_compute; reflexivity).
  assert (length finance_listing < 7) as Hstack by (simpl; lia).
  split.
  - split; [exact Hfinance|]. split; [exact finance_listing_forest|].
    split; [exact Hstack|].
    exact (proj1 (descendant_resolution_ends (catalog_get finance_listing)
                    example_client 7 "c-fin" (quiet ()) _ _ Hfinance)
             finance_listing_forest Hstack).
  - split; [exact Hlooped|]. split; [exact looped_listing_cycle|].
    exact (proj2 (descendant_resolution_ends (catalog_get looped_listing)
                    example_client 4000 "c-a" (quiet ()) _ _ Hlooped)
             looped_listing_cycle).
Defined.

(** On the two communities that name each other as parent the call does
    end, with the engine's error: it is not so that it never ends. *)
Lemma cycle_ends_with_RangeError :
  ¬ (reaches_cycle looped_listing "c-a" →
     ∀ stack,
       ¬ finished
           (getAllSubcommunities (catalog_get looped_listing) example_client
              stack "c-a" (quiet ())).1).
Proof.
  intros Hnever. apply (Hnever looped_listing_cycle 5).
  vm_compute. exact I.
Qed.

(** ** The batch export *)

Section ExportFacts.
Context {Remote : Type}.
Variable exportCommunity : Community → Answers → Js Remote string.
Variable options : Answers.

Abbreviation attempt :=
  (λ (comm : Community) (results : list ExportResult),
     try_catch
       (exportCommunity comm options;;
        mret (results ++
              [{| success := true; community := name comm; error := None |}]))
       (λ err,
          mret (results ++
                [{| success := false; community := name comm;
                    error := Some (message err) |}]))).

Hypothesis Hcompletes : ∀ comm w, (exportCommunity comm options w).1 ≠ OutOfFuel.

Lemma attempts_processed (units : list Community) (acc : list ExportResult)
    (w : World Remote) :
  ∃ results w1,
    for_of units attempt acc w = (Returned (acc ++ results), w1)
    ∧ processed exportCommunity options units w results w1.
Proof.
  revert acc w. induction units as [|comm units IH]; intros acc w.
  - exists [], w. split; [|constructor]. by rewrite app_nil_r.
  - simpl. js_unfold. pose proof (Hcompletes comm w) as Hc.
    destruct (exportCommunity comm options w) as [[location|e|] w1] eqn:Hrun;
      [| |done].
    + destruct (IH (acc ++ [succeeded comm]) w1) as (results & w2 & Hrest & Hp).
      exists (succeeded comm :: results), w2. split.
      * unfold succeeded in *. by rewrite Hrest, <- (assoc_L (++)).
      * by eapply processed_success.
    + destruct (IH (acc ++ [failed comm e]) w1) as (results & w2 & Hrest & Hp).
      exists (failed comm e :: results), w2. split.
      * unfold failed in *. by rewrite Hrest, <- (assoc_L (++)).
      * by eapply processed_failure.
Qed.

Lemma processed_names (units : list Community) (w w1 : World Remote)
    (results : list ExportResult) :
  processed exportCommunity options units w results w1 →
  community <$> results = name <$> units.
Proof. induction 1; simpl; by f_equal. Qed.

(** The units after a prefix are processed from the world that the
    prefix left, whatever happened in it. *)
Lemma processed_app_inv (units1 units2 : list Community) (w w2 : World Remote)
    (results : list ExportResult) :
  processed exportCommunity options (units1 ++ units2) w results w2 →
  ∃ results1 results2 w1,
    results = results1 ++ results2
    ∧ processed exportCommunity options units1 w results1 w1
    ∧ processed exportCommunity options units2 w1 results2 w2.
Proof.
  revert w results. induction units1 as [|comm units1 IH]; intros w results; simpl.
  - intros Hp. exists [], results, w. split; [done|]. split; [constructor|done].
  - inversion 1 as [|? ? ? location w1 rs ? Hrun Hrest
                     |? ? ? e w1 rs ? Hrun Hrest]; subst;
      destruct (IH _ _ Hrest) as (rs1 & rs2 & w1' & -> & Hp1 & Hp2).
    + exists (succeeded comm :: rs1), rs2, w1'. split; [done|].
      split; [by eapply processed_success|done].
    + exists (failed comm e :: rs1), rs2, w1'. split; [done|].
      split; [by eapply processed_failure|done].
Qed.

Lemma summary_loop (results : list ExportResult) (w : World Remote) :
  for_of results (λ result _, console_write (summary_lines result)) () w
  = (Returned (),
     {| remote := remote w; network := network w;
        console := console w ++ concat (summary_lines <$> results) |}).
Proof.
  revert w. induction results as [|r results IH]; intros w; simpl.
  - js_unfold. rewrite app_nil_r. by destruct w.
  - js_unfold. rewrite IH. simpl. by rewrite <- !(assoc_L (++)).
Qed.

(** C1. With a pipeline that returns or throws on every unit,
    [exportMultipleCommunities] returns one result for each unit, in the
    order of the units: every unit is processed in the world its
    predecessors left, whether they failed or not; its result carries its
    name and is a success when its pipeline returned and a failure with
    the error's message when it threw. [main] prints the summary of these
    results when the selection is not a single community, and for a
    single community calls the pipeline directly, so that a failure
    propagates to [main] unwrapped. *)
Theorem exportMultipleCommunities_isolates (units : list Community)
    (w : World Remote) :
  ∃ results w1,
    exportMultipleCommunities exportCommunity units options w
    = (Returned results, w1)
    ∧ processed exportCommunity options units w results w1
    ∧ community <$> results = name <$> units
    ∧ (∀ before comm after, units = before ++ comm :: after →
         ∃ results_b r results_a wb,
           results = results_b ++ r :: results_a
           ∧ length results_b = length before
           ∧ processed exportCommunity options before w results_b wb
           ∧ ((∃ location w', exportCommunity comm options wb = (Returned location, w')
                 ∧ r = succeeded comm)
              ∨ (∃ e w', exportCommunity comm options wb = (Threw e, w')
                   ∧ r = failed comm e)))
    ∧ (length units ≠ 1 →
         restExport exportCommunity units options w
         = (Returned (),
            {| remote := remote w1; network := network w1;
               console := console w1 ++ [ExportSummary]
                          ++ concat (summary_lines <$> results) |}))
    ∧ (∀ comm e w', units = [comm] →
         exportCommunity comm options w = (Threw e, w') →
         restExport exportCommunity units options w = (Threw e, w')).
Proof.
  destruct (attempts_processed units [] w) as (results & w1 & Hrun & Hp).
  change (exportMultipleCommunities exportCommunity units options w
          = (Returned results, w1)) in Hrun.
  exists results, w1. split; [exact Hrun|]. split; [exact Hp|].
  split; [by eapply processed_names|]. split; [|split].
  - intros before comm after ->.
    destruct (processed_app_inv _ _ _ _ _ Hp) as (rb & ra & wb & -> & Hb & Ha).
    inversion Ha as [|? ? ? location w' rs ? Hcomm Hrest
                      |? ? ? e w' rs ? Hcomm Hrest]; subst.
    + eexists rb, _, rs, wb. split; [done|]. split; [|split; [done|]].
      * apply processed_names in Hb. apply (f_equal length) in Hb.
        by rewrite !length_fmap in Hb.
      * left. by exists location, w'.
    + eexists rb, _, rs, wb. split; [done|]. split; [|split; [done|]].
      * apply processed_names in Hb. apply (f_equal length) in Hb.
        by rewrite !length_fmap in Hb.
      * right. by exists e, w'.
  - intros Hlen.
    assert (restExport exportCommunity units options w
            = (results ← exportMultipleCommunities exportCommunity units options;
               console_write [ExportSummary];;
               for_of results (λ result _, console_write (summary_lines result)) ())
                w) as ->.
    { destruct units as [|? [|? ?]]; done. }
    unfold mbind at 1. unfold Js_bind at 1. rewrite Hrun.
    unfold mbind, Js_bind, console_write. rewrite summary_loop. simpl.
    by rewrite <- !(assoc_L (++)).
  - intros comm e w' -> Hthrew. simpl. js_unfold. by rewrite Hthrew.
Qed.
End ExportFacts.

Lemma assets_pipeline_completes (bad : string) (options : Answers)
    (comm : Community) (w : World unit) :
  (assets_pipeline bad comm options w).1 ≠ OutOfFuel.
Proof.
  unfold assets_pipeline, fetchAllPages. simpl. js_unfold.
  unfold fetchAllPages_body, makeRequest. js_unfold. simpl.
  unfold down_for, page_params. simpl.
  rewrite !lookup_insert_ne, lookup_singleton_eq by done.
  destruct (bool_decide (id comm = bad)); [done|].
  unfold paged_get. rewrite lookup_singleton_eq. simpl.
  rewrite drop_nil, take_nil. simpl.
  pose proof limit_pos. rewrite bool_decide_eq_false_2 by lia. done.
Qed.

Example exportMultipleCommunities_three :
  (exportMultipleCommunities (assets_pipeline "c-emea") three_units
     (configureExportOptions accepting false) (quiet ())).1
  = Returned
      [ {| success := true; community := "Finance"; error := None |};
        {| success := false; community := "Finance EMEA";
           error := Some "Request failed with status code 503" |};
        {| success := true; community := "Legal"; error := None |} ]
  ∧ (restExport (assets_pipeline "c-emea") [sub "c-emea" "Finance EMEA" "c-fin"]
       (configureExportOptions accepting false) (quiet ())).1
    = Threw unavailable.
Proof. split; vm_compute; reflexivity. Qed.

Lemma exportMultipleCommunities_isolates_witness :
  (∀ comm w,
     (assets_pipeline "c-emea" comm (configureExportOptions accepting false) w).1
     ≠ OutOfFuel)
  ∧ ∃ results w1,
      exportMultipleCommunities (assets_pipeline "c-emea") three_units
        (configureExportOptions accepting false) (quiet ())
      = (Returned results, w1)
      ∧ community <$> results = name <$> three_units.
Proof.
  split; [apply assets_pipeline_completes|].
  destruct (exportMultipleCommunities_isolates (assets_pipeline "c-emea")
              (configureExportOptions accepting false)
              (assets_pipeline_completes _ _) three_units (quiet ()))
    as (results & w1 & Hrun & _ & Hnames & _).
  by exists results, w1.
Defined.

(** ** The export options and the aggregator *)

(** A question with another name leaves the answer about the assets. *)
Lemma ask_keeps_includeAssets (user : User) (answers : Answers) (q : Question) :
  question_name q ≠ "includeAssets" →
  ask user answers q !! "includeAssets" = answers !! "includeAssets".
Proof.
  destruct q as [qn qm qd when|qn qm qd]; simpl; intros Hname.
  - destruct (match when with Some f => f answers | None => true end); [|done].
    by rewrite lookup_insert_ne.
  - by rewrite lookup_insert_ne.
Qed.

Lemma ask_when_declined (user : User) (answers : Answers) (qn qm : string)
    (qd : bool) :
  truthy (answers !! "includeAssets") = false →
  ask user answers (Confirm qn qm qd when_includeAssets) = answers.
Proof. simpl. by intros ->. Qed.

(** When the user declines the assets, the three questions about their
    facets are not asked and leave no key in the options. *)
Lemma configureExportOptions_declined (user : User) (useGraphQL : bool) :
  truthy (configureExportOptions user useGraphQL !! "includeAssets") = false →
  configureExportOptions user useGraphQL !! "includeAttributes" = None
  ∧ configureExportOptions user useGraphQL !! "includeRelations" = None
  ∧ configureExportOptions user useGraphQL !! "includeResponsibilities" = None.
Proof.
  unfold configureExportOptions, prompt.
  destruct useGraphQL; cbn [app foldl];
    rewrite !ask_keeps_includeAssets by (simpl; discriminate);
    intros Hdeclined;
    rewrite !ask_when_declined
      by (rewrite ?ask_keeps_includeAssets by (simpl; discriminate); done);
    cbn [ask]; repeat split;
    rewrite !lookup_insert_ne by discriminate; apply lookup_empty.
Qed.

Section AggregatorFacts.
Context {Item Remote : Type}.
Variable axios_get :
  Request → Remote → (JsError + gmap string (list Item)) * Remote.
Variable this : CollibraClient.

(** What a facet that was returned tells about its flag. *)
Lemma facet_returned (flag : bool) (fetch : Js Remote (gmap string (list Item)))
    (w w1 : World Remote) (o : option (list Item)) :
  facet flag fetch w = (Returned o, w1) →
  (flag = false → o = None) ∧ (flag = true → ∃ items, o = Some items).
Proof.
  unfold facet. destruct flag; js_unfold.
  - destruct (fetch w) as [[resp|e|] w']; intros [= <- _]; try done.
    split; [done|]. intros _. by eexists.
  - intros [= <- _]. by split.
Qed.

(** C8. With [includeAssets] false, [aggregate] returns the bare asset
    and leaves the world as it was, so nothing is fetched whatever the
    three other flags say; the options that [configureExportOptions]
    builds do not even hold those flags then. With [includeAttributes]
    false a record that [aggregate] returns has no attributes facet,
    whereas with [includeAssets] and [includeAttributes] both true it
    has one, be it empty. *)
Theorem aggregate_gating (asset : Asset) (options : Answers) (w : World Remote) :
  (truthy (options !! "includeAssets") = false →
     aggregate axios_get this asset options w
     = (Returned {| base := asset; attributes := None; relations := None;
                    responsibilities := None |}, w))
  ∧ (truthy (options !! "includeAttributes") = false →
     ∀ record w1,
       aggregate axios_get this asset options w = (Returned record, w1) →
       attributes record = None)
  ∧ (truthy (options !! "includeAssets") = true →
     truthy (options !! "includeAttributes") = true →
     ∀ record w1,
       aggregate axios_get this asset options w = (Returned record, w1) →
       ∃ items, attributes record = Some items)
  ∧ (∀ user useGraphQL,
       options = configureExportOptions user useGraphQL →
       truthy (options !! "includeAssets") = false →
       options !! "includeAttributes" = None
       ∧ options !! "includeRelations" = None
       ∧ options !! "includeResponsibilities" = None).
Proof.
  split; [|split; [|split]].
  - intros Hassets. unfold aggregate. by rewrite Hassets.
  - intros Hattrs record w1. unfold aggregate.
    destruct (truthy (options !! "includeAssets")); [|by intros [= <- _]].
    intros (attrs & wa & Hfacet & Hrest)%bind_returned.
    apply bind_returned in Hrest as (rels & wb & _ & Hrest).
    apply bind_returned in Hrest as (resps & wc & _ & Hrest).
    injection Hrest as <- _. simpl.
    by apply (facet_returned _ _ _ _ _ Hfacet).
  - intros Hassets Hattrs record w1. unfold aggregate. rewrite Hassets.
    intros (attrs & wa & Hfacet & Hrest)%bind_returned.
    apply bind_returned in Hrest as (rels & wb & _ & Hrest).
    apply bind_returned in Hrest as (resps & wc & _ & Hrest).
    injection Hrest as <- _. simpl.
    by apply (facet_returned _ _ _ _ _ Hfacet).
  - intros user useGraphQL ->. apply configureExportOptions_declined.
Qed.
End AggregatorFacts.

Example aggregate_absent_or_empty :
  (aggregate (paged_get (@nil nat)) example_client revenue
     (configureExportOptions without_attributes false) (quiet ())).1
  = Returned {| base := revenue; attributes := None; relations := None;
                responsibilities := None |}
  ∧ (aggregate (paged_get (@nil nat)) example_client revenue
       (configureExportOptions accepting false) (quiet ())).1
    = Returned {| base := revenue; attributes := Some []; relations := None;
                  responsibilities := None |}.
Proof. split; vm_compute; reflexivity. Qed.

Lemma aggregate_gating_witness :
  (truthy (configureExportOptions declining true !! "includeAssets") = false
   ∧ aggregate (paged_get (seq 0 5)) example_client revenue
       (configureExportOptions declining true) (quiet ())
     = (Returned {| base := revenue; attributes := None; relations := None;
                    responsibilities := None |}, quiet ()))
  ∧ (truthy (configureExportOptions without_attributes false !! "includeAttributes")
     = false
     ∧ attributes
         {| base := revenue; attributes := @None (list nat); relations := None;
            responsibilities := None |} = None)
  ∧ (truthy (configureExportOptions accepting false !! "includeAssets") = true
     ∧ truthy (configureExportOptions accepting false !! "includeAttributes") = true
     ∧ ∃ items : list nat,
         attributes
           {| base := revenue; attributes := Some []; relations := None;
              responsibilities := None |} = Some items).
Proof.
  assert (truthy (configureExportOptions declining true !! "includeAssets") = false)
    as Hdeclined by (vm_compute; reflexivity).
  assert (truthy (configureExportOptions without_attributes false
                    !! "includeAttributes") = false)
    as Hwithout by (vm_compute; reflexivity).
  assert (truthy (configureExportOptions accepting false !! "includeAssets") = true)
    as Hassets by (vm_compute; reflexivity).
  assert (truthy (configureExportOptions accepting false !! "includeAttributes") = true)
    as Hattrs by (vm_compute; reflexivity).
  split; [|split].
  - split; [exact Hdeclined|].
    exact (proj1 (aggregate_gating (paged_get (seq 0 5)) example_client revenue
                    (configureExportOptions declining true) (quiet ()))
             Hdeclined).
  - split; [exact Hwithout|].
    refine (proj1 (proj2 (aggregate_gating (paged_get (@nil nat)) example_client
                            revenue (configureExportOptions without_attributes false)
                            (quiet ())))
              Hwithout _
              {| remote := ();
                 network := [];
                 console := [] |} _).
    vm_compute. reflexivity.
  - split; [exact Hassets|]. split; [exact Hattrs|].
    refine (proj1 (proj2 (proj2 (aggregate_gating (paged_get (@nil nat))
                                   example_client revenue
                                   (configureExportOptions accepting false)
                                   (quiet ()))))
              Hassets Hattrs _
              {| remote := ();
                 network := [request_of example_client "/assets/a-1/attributes" ∅];
                 console := [] |} _).
    vm_compute. reflexivity.
Defined.

(** * Further properties *)

(** ** The requests and the result of a paginated fetch *)

Lemma page_requests_cons (this : CollibraClient) (endpoint : string)
    (ps : Params) (k n : nat) :
  page_requests this endpoint ps k (S n)
  = request_of this endpoint (page_params ps (k * limit))
    :: page_requests this endpoint ps (S k) n.
Proof. done. Qed.

Section PaginationTrace.
Context {Item Remote : Type}.
Variable axios_get :
  Request → Remote → (JsError + gmap string (list Item)) * Remote.
Variable this : CollibraClient.
Variables (endpoint : string) (ps : Params) (itemsKey : string).

(** The loop from the page number [k], for every service and every
    outcome. *)
Lemma while_trace (fuel k : nat) (st : PageLoop) (w w1 : World Remote)
    (c : Completion (list Item)) :
  hasMore st = true → offset st = k * limit →
  length (allResults st) = k * limit →
  fetchAllPages_while axios_get this fuel endpoint ps itemsKey st w = (c, w1) →
  ∃ n, n ≤ fuel
    ∧ network w1 = network w ++ page_requests this endpoint ps k n
    ∧ match c with
      | Returned items =>
          1 ≤ n
          ∧ (∃ last, length items = (k + n - 1) * limit + last ∧ last ≠ limit)
          ∧ console w1 = console w ++ progress_lines (S k) (n - 1)
      | Threw e => 1 ≤ n
      | OutOfFuel => n = fuel
      end.
Proof.
  revert k st w. induction fuel as [|fuel IH]; intros k st w Hmore Hoff Hlen.
  - intros [= <- <-]. exists 0. split; [done|]. split; [|done].
    unfold page_requests. simpl. by rewrite app_nil_r.
  - simpl. rewrite Hmore. unfold fetchAllPages_body, makeRequest. js_unfold.
    rewrite Hoff.
    destruct (axios_get _ (remote w)) as [[e|body] r'].
    + intros [= <- <-]. exists 1. split; [lia|]. split; [|done].
      by rewrite page_requests_cons.
    + destruct (decide (length (default [] (body !! itemsKey)) = limit)) as [Hfull|Hodd].
      * rewrite bool_decide_eq_true_2 by done. cbn [fst snd].
        intros Hrun. apply (IH (S k)) in Hrun as (n & Hn & Hnet & Hc);
          cbn [hasMore offset allResults]; [|done|simpl; lia|
            rewrite length_app, Hlen, Hfull; simpl; lia].
        exists (S n). split; [lia|]. split.
        -- rewrite Hnet. cbn [network]. rewrite page_requests_cons.
           by rewrite <- (assoc_L (++)).
        -- destruct c as [items|e|]; [|lia|lia].
           destruct Hc as (Hn1 & (last & Hitems & Hlast) & Hcons).
           split; [lia|]. split.
           ++ exists last. split; [|done]. rewrite Hitems. f_equal. f_equal. lia.
           ++ rewrite Hcons. cbn [console]. rewrite <- (assoc_L (++)). f_equal.
              rewrite length_app, Hlen, Hfull.
              destruct n as [|n]; [lia|].
              replace (S n - 1) with n by lia. replace (S (S n) - 1) with (S n) by lia.
              unfold progress_lines. simpl. do 2 f_equal. lia.
      * rewrite bool_decide_eq_false_2 by done. cbn [fst snd].
        destruct fuel as [|fuel]; simpl; js_unfold.
        -- intros [= <- <-]. exists 1. split; [lia|]. split; [|done].
           by rewrite page_requests_cons.
        -- intros [= <- <-]. exists 1. split; [lia|]. split;
             [by rewrite page_requests_cons|].
           split; [lia|]. split.
           ++ exists (length (default [] (body !! itemsKey))). split; [|done].
              rewrite length_app, Hlen. f_equal. f_equal. lia.
           ++ unfold progress_lines. simpl. by rewrite app_nil_r.
Qed.

(** X1. Whatever the service answers and however the fetch ends,
    [fetchAllPages] sends its requests at the offsets 0, 1000, 2000, ...
    in this order and nothing else: each goes to the endpoint under
    [apiURL] with the client's header, carries [limit] 1000 and its own
    [offset], also when the caller's parameters hold other values for
    these two keys, and passes every other key of the caller's
    parameters on unchanged. *)
Theorem fetchAllPages_requests (fuel : nat) (w : World Remote) :
  ∃ n, n ≤ fuel
    ∧ network (fetchAllPages axios_get this fuel endpoint ps itemsKey w).2
      = network w ++ page_requests this endpoint ps 0 n
    ∧ ∀ i req, page_requests this endpoint ps 0 n !! i = Some req →
        url req = apiURL this +:+ endpoint
        ∧ authorization req = authHeader this
        ∧ params req !! "limit" = Some (JNum 1000)
        ∧ params req !! "offset" = Some (JNum (1000 * Z.of_nat i))
        ∧ ∀ key, key ≠ "limit" → key ≠ "offset" →
            params req !! key = ps !! key.
Proof.
  destruct (fetchAllPages axios_get this fuel endpoint ps itemsKey w)
    as [c w1] eqn:Hrun.
  apply (while_trace fuel 0) in Hrun as (n & Hn & Hnet & _); [|done..].
  exists n. split; [done|]. split; [done|].
  intros i req Hreq. unfold page_requests in Hreq.
  rewrite list_lookup_fmap in Hreq.
  destruct (seq 0 n !! i) as [j|] eqn:Hj; [|done].
  apply lookup_seq in Hj as [-> _]. injection Hreq as <-. simpl.
  split; [done|]. split; [done|]. unfold page_params. split; [|split].
  - by rewrite lookup_insert_eq, Z_of_limit.
  - rewrite lookup_insert_ne, lookup_insert_eq by done.
    by rewrite Nat2Z.inj_mul, Z_of_limit, Z.mul_comm.
  - intros key Hlimit Hoffset. by rewrite !lookup_insert_ne.
Qed.

(** X2. When [fetchAllPages] returns, after [n] requests, its result
    consists of [n - 1] pages of exactly 1000 items and a last page of
    another length, and it has printed one progress notice after each of
    the full pages, with the running totals 1000, 2000, ... *)
Theorem fetchAllPages_returned_shape (fuel : nat) (w w1 : World Remote)
    (items : list Item) :
  fetchAllPages axios_get this fuel endpoint ps itemsKey w = (Returned items, w1) →
  ∃ n last, 1 ≤ n
    ∧ network w1 = network w ++ page_requests this endpoint ps 0 n
    ∧ length items = (n - 1) * limit + last ∧ last ≠ limit
    ∧ console w1 = console w ++ progress_lines 1 (n - 1).
Proof.
  intros Hrun.
  apply (while_trace fuel 0) in Hrun
    as (n & Hn & Hnet & Hn1 & (last & Hitems & Hlast) & Hcons); [|done..].
  exists n, last. by repeat split.
Qed.


(** X4. Nothing bounds the number of pages: against a service that
    answers every request with a page of exactly 1000 items, for
    instance one that ignores the offset, [fetchAllPages] never returns;
    it sends one request after the other. *)
Theorem fetchAllPages_unbounded (fuel : nat) (w : World Remote) :
  (∀ off r, ∃ body r',
     axios_get (request_of this endpoint (page_params ps off)) r = (inr body, r')
     ∧ length (default [] (body !! itemsKey)) = limit) →
  (fetchAllPages axios_get this fuel endpoint ps itemsKey w).1 = OutOfFuel
  ∧ length (network (fetchAllPages axios_get this fuel endpoint ps itemsKey w).2)
    = length (network w) + fuel.
Proof.
  intros Hfull. unfold fetchAllPages.
  generalize (eq_refl : hasMore (@first_page Item) = true).
  unfold first_page. generalize ({| allResults := @nil Item; offset := 0;
                                    hasMore := true |}).
  revert w. induction fuel as [|fuel IH]; intros w st Hmore.
  - simpl. split; [done|lia].
  - destruct (Hfull (offset st) (remote w)) as (body & r' & Hget & Hlen).
    erewrite while_full; [| done | by unfold makeRequest; rewrite Hget | done].
    match goal with
    | |- context [fetchAllPages_while _ _ fuel _ _ _ ?s ?v] =>
        destruct (IH v s eq_refl) as [Hc Hn]
    end.
    split; [exact Hc|]. rewrite Hn. simpl. rewrite length_app. simpl. lia.
Qed.
End PaginationTrace.

Lemma fetchAllPages_returned_shape_witness :
  fetchAllPages (paged_get (seq 0 1003)) example_client 3 "/assets" ∅ "results"
    (quiet ())
  = (Returned (seq 0 1003),
     {| remote := ();
        network := [request_of example_client "/assets" (page_params ∅ 0);
                    request_of example_client "/assets" (page_params ∅ 1000)];
        console := [FetchedContinuing 1000] |})
  ∧ ∃ n last, 1 ≤ n
      ∧ [request_of example_client "/assets" (page_params ∅ 0);
         request_of example_client "/assets" (page_params ∅ 1000)]
        = [] ++ page_requests example_client "/assets" ∅ 0 n
      ∧ length (seq 0 1003) = (n - 1) * limit + last ∧ last ≠ limit
      ∧ [FetchedContinuing 1000] = [] ++ progress_lines 1 (n - 1).
Proof.
  assert (fetchAllPages (paged_get (seq 0 1003)) example_client 3 "/assets" ∅
            "results" (quiet ())
          = (Returned (seq 0 1003),
             {| remote := ();
                network := [request_of example_client "/assets" (page_params ∅ 0);
                            request_of example_client "/assets" (page_params ∅ 1000)];
                console := [FetchedContinuing 1000] |})) as Hrun
    by (vm_compute; reflexivity).
  split; [exact Hrun|].
  exact (fetchAllPages_returned_shape (paged_get (seq 0 1003)) example_client
           "/assets" ∅ "results" 3 (quiet ()) _ _ Hrun).
Defined.


Lemma same_page_get_full {Item : Type} (page : list Item) (this : CollibraClient)
    (endpoint : string) (ps : Params) :
  length page = limit →
  ∀ (off : nat) (r : unit), ∃ body r',
    same_page_get page (request_of this endpoint (page_params ps off)) r
    = (inr body, r')
    ∧ length (default [] (body !! "results")) = limit.
Proof.
  intros Hlen off r. eexists _, r. split; [reflexivity|].
  by rewrite lookup_singleton_eq.
Qed.

Lemma fetchAllPages_unbounded_witness :
  (fetchAllPages (same_page_get (replicate limit 7)) example_client 50 "/assets"
     ∅ "results" (quiet ())).1 = OutOfFuel
  ∧ length (network
      (fetchAllPages (same_page_get (replicate limit 7)) example_client 50
         "/assets" ∅ "results" (quiet ())).2) = 0 + 50.
Proof.
  apply (fetchAllPages_unbounded (same_page_get (replicate limit 7))
           example_client "/assets" ∅ "results" 50 (quiet ())).
  apply same_page_get_full, length_replicate.
Defined.

Lemma fetchAllPages_requests_witness :
  ∃ n, n ≤ 3
    ∧ network (fetchAllPages (paged_get (seq 0 1003)) example_client 3 "/assets"
                 {[ "offset" := JNum 7; "domainId" := JStr "d-1" ]} "results"
                 (quiet ())).2
      = [] ++ page_requests example_client "/assets"
                {[ "offset" := JNum 7; "domainId" := JStr "d-1" ]} 0 n
    ∧ ∀ i req,
        page_requests example_client "/assets"
          {[ "offset" := JNum 7; "domainId" := JStr "d-1" ]} 0 n !! i = Some req →
        url req = apiURL example_client +:+ "/assets"
        ∧ authorization req = authHeader example_client
        ∧ params req !! "limit" = Some (JNum 1000)
        ∧ params req !! "offset" = Some (JNum (1000 * Z.of_nat i))
        ∧ ∀ key, key ≠ "limit" → key ≠ "offset" →
            params req !! key
            = ({[ "offset" := JNum 7; "domainId" := JStr "d-1" ]} : Params) !! key.
Proof.
  exact (fetchAllPages_requests (paged_get (seq 0 1003)) example_client "/assets"
           {[ "offset" := JNum 7; "domainId" := JStr "d-1" ]} "results" 3
           (quiet ())).
Defined.

(** ** More on the descendants *)

Lemma filter_none {A : Type} (P : A → Prop) `{!∀ x, Decision (P x)} (l : list A) :
  (∀ x, x ∈ l → ¬ P x) → filter P l = [].
Proof.
  induction l as [|a l IH]; intros Hnone; [done|].
  rewrite filter_cons_False by (apply Hnone; by left).
  apply IH. intros x Hx. apply Hnone. by right.
Qed.

Section DescendantOrder.
Variable communities : list Community.

Abbreviation fd fuel := (findDescendants fuel communities).

Lemma blocks_no_child (fuel : nat) (x : string) (cs : list Community) :
  (∀ c, c ∈ cs → is_child_of x c = false) → blocks communities fuel x cs [].
Proof.
  induction cs as [|c cs IH]; intros Hnone; constructor.
  - apply Hnone. by left.
  - apply IH. intros c' Hc'. apply Hnone. by right.
Qed.

Lemma blocks_nil_inv (fuel : nat) (x : string) (cs out : list Community) :
  blocks communities fuel x cs out → out = [] →
  ∀ c, c ∈ cs → is_child_of x c = false.
Proof.
  induction 1 as [|c' cs out Hc' Hb IH|]; intros Hout c Hc; [|simplify_eq..].
  - by apply elem_of_nil in Hc.
  - apply elem_of_cons in Hc as [->|Hc]; [done|by apply IH].
Qed.

(** X5. An identifier that no listed community names as its parent, be
    it a leaf or an identifier that is not in the listing at all, has the
    empty result, not an error; and only such identifiers have it. *)
Theorem findDescendants_empty (fuel : nat) (x : string) :
  findDescendants (S fuel) communities x = Some []
  ↔ ∀ c, c ∈ communities → is_child_of x c = false.
Proof.
  rewrite fd_Some. split.
  - intros Hb. by eapply blocks_nil_inv.
  - apply blocks_no_child.
Qed.

(** X6. On every listing, also one with repeated identifiers, a result
    that [findDescendants] returns holds exactly the communities that
    chains of parent references connect to the root. *)
Theorem findDescendants_exact (fuel : nat) (root : string)
    (out : list Community) :
  findDescendants fuel communities root = Some out →
  ∀ c, c ∈ out ↔ descendant communities root c.
Proof.
  intros Hout c. split; [by eapply fd_sound|].
  intros Hc. by eapply fd_complete.
Qed.

(** No descendant of a child of [x] is a child of [x] itself, when the
    descent from [x] returns. *)
Lemma no_child_below (fuel fuel' : nat) (x : string) (c d : Community)
    (out sub : list Community) :
  fd fuel x = Some out → child_of communities x c →
  fd fuel' (id c) = Some sub → d ∈ sub → is_child_of x d = false.
Proof.
  intros Hout Hc Hsub Hd. destruct (is_child_of x d) eqn:Hchild; [|done].
  apply is_child_of_true in Hchild.
  destruct (fd_sound _ _ _ _ _ Hsub Hd) as (p & Hp & [_ Hpar]).
  rewrite Hchild in Hpar. injection Hpar as <-.
  assert (reaches_cycle communities x) as Hcycle.
  { exists x. split; [done|]. eapply tc_rtc_r; [|exact Hp].
    by apply tc_once, child_link. }
  by rewrite (fd_diverges _ x Hcycle fuel) in Hout.
Qed.

Lemma blocks_children (fuel : nat) (x : string) (cs out : list Community) :
  (∀ c sub d, c ∈ cs → is_child_of x c = true → fd fuel (id c) = Some sub →
     d ∈ sub → is_child_of x d = false) →
  blocks communities fuel x cs out →
  filter (λ c, is_child_of x c = true) out
  = filter (λ c, is_child_of x c = true) cs.
Proof.
  intros Hbelow Hb. induction Hb as [|c cs out Hc Hb IH|c cs sub out Hc Hrec Hb IH].
  - done.
  - rewrite (filter_cons_False _ c) by congruence. apply IH.
    intros c' sub d Hin. apply Hbelow. by right.
  - rewrite !filter_cons_True by done. f_equal. rewrite filter_app.
    assert (filter (λ c, is_child_of x c = true) sub = []) as ->.
    { apply filter_none. intros d Hd.
      rewrite (Hbelow c sub d); [done|by left|done..]. }
    apply IH. intros c' sub' d Hin. apply Hbelow. by right.
Qed.

(** X7. In a result that [findDescendants] returns, the direct children
    of the root come in the order of the listing (the order in which the
    service sent them), each of them once for every time it is listed. *)
Theorem findDescendants_children_order (fuel : nat) (root : string)
    (out : list Community) :
  findDescendants fuel communities root = Some out →
  filter (λ c, is_child_of root c = true) out
  = filter (λ c, is_child_of root c = true) communities.
Proof.
  destruct fuel as [|fuel]; [done|]. intros Hout.
  apply (blocks_children fuel); [|by apply fd_Some].
  intros c sub d Hin Hc Hsub Hd. eapply no_child_below; [exact Hout| |exact Hsub|exact Hd].
  split; [done|by apply is_child_of_true].
Qed.

Lemma blocks_mono (fuel : nat) (x : string) (cs out : list Community) :
  (∀ y sub, fd fuel y = Some sub → fd (S fuel) y = Some sub) →
  blocks communities fuel x cs out → blocks communities (S fuel) x cs out.
Proof.
  intros IHfuel.
  induction 1 as [|c cs out Hc Hb IH|c cs sub out Hc Hrec Hb IH].
  - apply blocks_nil.
  - by apply blocks_skip.
  - apply blocks_child; [done| |done]. by apply IHfuel.
Qed.

(** A deeper bound does not change a result. *)
Lemma fd_mono (fuel : nat) (x : string) (out : list Community) :
  fd fuel x = Some out → fd (S fuel) x = Some out.
Proof.
  revert x out. induction fuel as [|fuel IH]; intros x out; [done|].
  rewrite !fd_Some. by apply blocks_mono.
Qed.

Lemma blocks_segment (fuel : nat) (x : string) (cs out : list Community)
    (c : Community) :
  (∀ y sub, fd fuel y = Some sub → c ∈ sub →
     ∃ l1 below l2, sub = l1 ++ c :: below ++ l2 ∧ fd fuel (id c) = Some below) →
  blocks communities fuel x cs out → c ∈ out →
  ∃ l1 below l2, out = l1 ++ c :: below ++ l2 ∧ fd fuel (id c) = Some below.
Proof.
  intros IHfuel. induction 1 as [|c' cs out Hc' Hb IH|c' cs sub out Hc' Hrec Hb IH];
    intros Hc.
  - by apply elem_of_nil in Hc.
  - by apply IH.
  - apply elem_of_cons in Hc as [->|Hc]; [|apply elem_of_app in Hc as [Hc|Hc]].
    + by exists [], sub, out.
    + destruct (IHfuel _ _ Hrec Hc) as (l1 & below & l2 & -> & Hbelow).
      exists (c' :: l1), below, (l2 ++ out). split; [|done].
      simpl. rewrite <- !(assoc_L (++)). simpl. by rewrite <- ?(assoc_L (++)).
    + destruct (IH Hc) as (l1 & below & l2 & -> & Hbelow).
      exists (c' :: sub ++ l1), below, l2. split; [|done].
      simpl. rewrite <- !(assoc_L (++)). simpl. by rewrite <- ?(assoc_L (++)).
Qed.

(** X8. The result is laid out parent first, subtree next: every
    community in it is followed immediately by exactly what
    [findDescendants] returns for that community's own identifier. *)
Theorem findDescendants_subtree (fuel : nat) (root : string)
    (out : list Community) (c : Community) :
  findDescendants fuel communities root = Some out → c ∈ out →
  ∃ before below after,
    out = before ++ c :: below ++ after
    ∧ findDescendants fuel communities (id c) = Some below.
Proof.
  revert root out. induction fuel as [|fuel IH]; intros root out; [done|].
  rewrite fd_Some. intros Hb Hc.
  destruct (blocks_segment fuel root communities out c) as (l1 & below & l2 & -> & Hbelow);
    [|done|done|].
  - intros y sub Hy Hin. exact (IH y sub Hy Hin).
  - exists l1, below, l2. split; [done|]. by apply fd_mono.
Qed.
End DescendantOrder.

Lemma findDescendants_exact_witness :
  findDescendants 7 finance_listing "c-fin"
  = Some [ sub "c-apac" "Finance APAC" "c-fin";
           sub "c-emea" "Finance EMEA" "c-fin";
           sub "c-acc" "Finance Accounting" "c-emea" ]
  ∧ ∀ c, c ∈ [ sub "c-apac" "Finance APAC" "c-fin";
               sub "c-emea" "Finance EMEA" "c-fin";
               sub "c-acc" "Finance Accounting" "c-emea" ]
         ↔ descendant finance_listing "c-fin" c.
Proof.
  split; [reflexivity|].
  exact (findDescendants_exact finance_listing 7 "c-fin" _ eq_refl).
Defined.

Lemma findDescendants_children_order_witness :
  filter (λ c, is_child_of "c-fin" c = true)
    [ sub "c-apac" "Finance APAC" "c-fin";
      sub "c-emea" "Finance EMEA" "c-fin";
      sub "c-acc" "Finance Accounting" "c-emea" ]
  = filter (λ c, is_child_of "c-fin" c = true) finance_listing.
Proof.
  exact (findDescendants_children_order finance_listing 7 "c-fin" _ eq_refl).
Defined.

Lemma findDescendants_subtree_witness :
  ∃ before below after,
    [ sub "c-apac" "Finance APAC" "c-fin";
      sub "c-emea" "Finance EMEA" "c-fin";
      sub "c-acc" "Finance Accounting" "c-emea" ]
    = before ++ sub "c-emea" "Finance EMEA" "c-fin" :: below ++ after
    ∧ findDescendants 7 finance_listing "c-emea" = Some below.
Proof.
  refine (findDescendants_subtree finance_listing 7 "c-fin" _
            (sub "c-emea" "Finance EMEA" "c-fin") eq_refl _).
  apply list_elem_of_lookup_2 with 1. reflexivity.
Defined.

(** ** More on [getAllSubcommunities] *)

Section SubcommunityFacts.
Context {Remote : Type}.
Variable axios_get :
  Request → Remote → (JsError + gmap string (list Community)) * Remote.
Variable this : CollibraClient.

(** X9. [getAllSubcommunities] sends exactly one request, for the first
    1000 communities in the order of their names, however it ends. When
    that request fails, the failure is what the caller gets; when the
    response has no [results], the result is empty, not an error. *)
Theorem getAllSubcommunities_request (fuel : nat) (communityId : string)
    (w : World Remote) :
  network (getAllSubcommunities axios_get this fuel communityId w).2
  = network w ++ [request_of this "/communities" listing_params]
  ∧ (∀ e w1,
       makeRequest axios_get this "/communities" listing_params w = (Threw e, w1) →
       getAllSubcommunities axios_get this fuel communityId w = (Threw e, w1))
  ∧ (∀ resp w1,
       makeRequest axios_get this "/communities" listing_params w
       = (Returned resp, w1) →
       resp !! "results" = None →
       getAllSubcommunities axios_get this (S fuel) communityId w
       = (Returned [], w1)).
Proof.
  split; [|split].
  - unfold getAllSubcommunities, getCommunities. fold listing_params. js_unfold.
    destruct (makeRequest axios_get this "/communities" listing_params w)
      as [[resp|e|] w1] eqn:Hreq; cbn [snd].
    + destruct (findDescendants _ _ _); by eapply makeRequest_network.
    + by eapply makeRequest_network.
    + by eapply makeRequest_network.
  - intros e w1 Hreq. unfold getAllSubcommunities, getCommunities.
    fold listing_params. js_unfold. by rewrite Hreq.
  - intros resp w1 Hreq Hnone.
    erewrite getAllSubcommunities_run; [|exact Hreq]. by rewrite Hnone.
Qed.

(** X10. When the service lists at most 1000 communities and they form
    a forest, [getAllSubcommunities] returns exactly the communities
    below the given one, each once. *)
Theorem getAllSubcommunities_small_catalog (all : list Community) (fuel : nat)
    (communityId : string) (w : World Remote) :
  catalog_service axios_get this all →
  length all ≤ limit → forest all → length all < fuel →
  ∃ out w1,
    getAllSubcommunities axios_get this fuel communityId w = (Returned out, w1)
    ∧ (∀ c, c ∈ out ↔ descendant all communityId c)
    ∧ NoDup out.
Proof.
  intros Hservice Hsmall Hforest Hfuel.
  destruct (getAllSubcommunities_one_page axios_get this all fuel communityId w
              Hservice) as (w1 & Hrun & _).
  rewrite take_ge in Hrun by done.
  destruct (fd_terminates all fuel communityId) as [out Hout];
    [apply Hforest|done|].
  rewrite Hout in Hrun. exists out, w1. split; [done|]. split.
  - intros c. split; [by eapply fd_sound|]. intros Hc. by eapply fd_complete.
  - by eapply fd_NoDup.
Qed.
End SubcommunityFacts.

Lemma getAllSubcommunities_request_witness :
  getAllSubcommunities (flaky_get finance_listing 0 unavailable) example_client 7
    "c-fin" (quiet 0)
  = (Threw unavailable,
     {| remote := 1;
        network := [request_of example_client "/communities" listing_params];
        console := [ApiRequestFailed "/communities"
                      "Request failed with status code 503";
                    ErrStatus 503;
                    ErrURL "https://acme.collibra.com/rest/2.0/assets";
                    ErrResponseData "Service Unavailable"] |})
  ∧ getAllSubcommunities (data_key_get finance_listing) example_client 7 "c-fin"
      (quiet ())
    = (Returned [],
       {| remote := ();
          network := [request_of example_client "/communities" listing_params];
          console := [] |}).
Proof.
  split.
  - refine (proj1 (proj2 (getAllSubcommunities_request
      (flaky_get finance_listing 0 unavailable) example_client 7 "c-fin" (quiet 0)))
      unavailable _ _).
    reflexivity.
  - refine (proj2 (proj2 (getAllSubcommunities_request
      (data_key_get finance_listing) example_client 6 "c-fin" (quiet ())))
      {[ "data" := finance_listing ]} _ _ _); reflexivity.
Defined.

Lemma getAllSubcommunities_small_catalog_witness :
  catalog_service (catalog_get finance_listing) example_client finance_listing
  ∧ length finance_listing ≤ limit ∧ forest finance_listing
  ∧ length finance_listing < 7
  ∧ ∃ out w1,
      getAllSubcommunities (catalog_get finance_listing) example_client 7 "c-fin"
        (quiet ()) = (Returned out, w1)
      ∧ (∀ c, c ∈ out ↔ descendant finance_listing "c-fin" c)
      ∧ NoDup out.
Proof.
  assert (length finance_listing ≤ limit) as Hsmall by (vm_compute; lia).
  assert (length finance_listing < 7) as Hfuel by (simpl; lia).
  split; [apply catalog_get_service|]. split; [exact Hsmall|].
  split; [exact finance_listing_forest|]. split; [exact Hfuel|].
  exact (getAllSubcommunities_small_catalog (catalog_get finance_listing)
           example_client finance_listing 7 "c-fin" (quiet ())
           (catalog_get_service _ _) Hsmall finance_listing_forest Hfuel).
Defined.

(** ** More on the export options *)

Lemma ask_when_accepted (user : User) (answers : Answers) (qn qm : string)
    (qd : bool) :
  truthy (answers !! "includeAssets") = true →
  ask user answers (Confirm qn qm qd when_includeAssets)
  = <[qn := ABool (default qd (confirms user qn))]> answers.
Proof. simpl. by intros ->. Qed.

Lemma configureExportOptions_shape_eq (user : User) (useGraphQL : bool) :
  configureExportOptions user useGraphQL
  = if wants_assets user then accepted_options user useGraphQL
    else declined_options user.
Proof.
  unfold configureExportOptions, prompt, wants_assets.
  destruct useGraphQL; cbn [app foldl];
    (set (a1 := ask user ∅ (Confirm "includeAssets" "Include assets?" true None));
     assert (a1 !! "includeAssets"
             = Some (ABool (default true (confirms user "includeAssets")))) as Ha1
       by apply lookup_insert_eq;
     destruct (default true (confirms user "includeAssets")) eqn:Ha;
     [ rewrite !ask_when_accepted
         by (rewrite ?ask_keeps_includeAssets by (simpl; discriminate);
             by rewrite Ha1)
     | rewrite !ask_when_declined
         by (rewrite ?ask_keeps_includeAssets by (simpl; discriminate);
             by rewrite Ha1) ];
     subst a1; cbn [ask]; by rewrite Ha).
Qed.

(** X11. The options that [configureExportOptions] returns have one of
    two shapes. When the user declines the assets they hold
    [includeAssets] (false) and [outputDir] and no other key. Otherwise
    they hold all five keys; every flag is the user's answer or, without
    one, its default: true for the attributes, false for the
    responsibilities, and for the relations true with GraphQL and false
    with REST. The directory defaults to ['./exports']. *)
Theorem configureExportOptions_shape (user : User) (useGraphQL : bool) :
  (wants_assets user = true →
   configureExportOptions user useGraphQL = accepted_options user useGraphQL
   ∧ dom (configureExportOptions user useGraphQL)
     = {[ "includeAssets"; "includeAttributes"; "includeRelations";
          "includeResponsibilities"; "outputDir" ]})
  ∧ (wants_assets user = false →
     configureExportOptions user useGraphQL = declined_options user
     ∧ dom (configureExportOptions user useGraphQL)
       = {[ "includeAssets"; "outputDir" ]}).
Proof.
  rewrite configureExportOptions_shape_eq.
  split; intros ->; (split; [done|]).
  - unfold accepted_options. rewrite !dom_insert_L, dom_empty_L. set_solver.
  - unfold declined_options. rewrite !dom_insert_L, dom_empty_L. set_solver.
Qed.

(** X12. The two export methods ask for the same options except for the
    default of the relations: the options of the GraphQL and of the REST
    flow are equal exactly when the user declines the assets or answers
    the question about the relations. *)
Theorem configureExportOptions_methods (user : User) :
  configureExportOptions user true = configureExportOptions user false
  ↔ wants_assets user = false ∨ is_Some (confirms user "includeRelations").
Proof.
  rewrite !configureExportOptions_shape_eq.
  destruct (wants_assets user); [|by split; [left|]].
  unfold accepted_options. split.
  - intros Heq. right.
    apply (f_equal (λ o : Answers, o !! "includeRelations")) in Heq.
    rewrite !(lookup_insert_ne _ "outputDir"),
      !(lookup_insert_ne _ "includeResponsibilities"), !lookup_insert_eq in Heq
      by done.
    destruct (confirms user "includeRelations"); [done|]. by simplify_eq/=.
  - intros [|[b Hb]]; [done|]. by rewrite Hb.
Qed.

Lemma configureExportOptions_shape_witness :
  (wants_assets accepting = true
   ∧ configureExportOptions accepting true = accepted_options accepting true
   ∧ dom (configureExportOptions accepting true)
     = {[ "includeAssets"; "includeAttributes"; "includeRelations";
          "includeResponsibilities"; "outputDir" ]})
  ∧ (wants_assets declining = false
     ∧ configureExportOptions declining false = declined_options declining
     ∧ dom (configureExportOptions declining false)
       = {[ "includeAssets"; "outputDir" ]}).
Proof.
  split.
  - split; [reflexivity|].
    exact (proj1 (configureExportOptions_shape accepting true) eq_refl).
  - split; [reflexivity|].
    exact (proj2 (configureExportOptions_shape declining false) eq_refl).
Defined.

(** ** The table and the selection *)

Lemma string_length_app (s t : string) :
  String.length (s +:+ t) = String.length s + String.length t.
Proof. induction s as [|a s IH]; simpl; [done|by rewrite IH]. Qed.

Lemma string_length_substring (n : nat) (s : string) :
  String.length (String.substring 0 n s) ≤ n.
Proof.
  revert s. induction n as [|n IH]; intros [|a s]; simpl; try lia.
  specialize (IH s). lia.
Qed.

Lemma string_prefix_app (s t : string) : String.prefix s (s +:+ t) = true.
Proof.
  induction s as [|a s IH]; simpl; [by destruct t|].
  by destruct (Ascii.ascii_dec a a).
Qed.



Lemma picked_from_elem_of (pos : nat) (checked : nat → bool)
    (communities : list Community) (c : Community) :
  c ∈ picked_from pos checked communities
  ↔ ∃ i, communities !! i = Some c ∧ checked (pos + i) = true.
Proof.
  revert pos. induction communities as [|c0 cs IH]; intros pos; simpl.
  - split; [intros H; by apply elem_of_nil in H|by intros (i & ? & _)].
  - rewrite elem_of_app, IH. split.
    + intros [Hhead|(i & Hi & Hchecked)].
      * destruct (checked pos) eqn:Hpos; [|by apply elem_of_nil in Hhead].
        apply list_elem_of_singleton in Hhead as ->.
        exists 0. by rewrite Nat.add_0_r.
      * exists (S i). by rewrite <- Nat.add_succ_comm.
    + intros ([|i] & Hi & Hchecked).
      * left. rewrite Nat.add_0_r in Hchecked. rewrite Hchecked.
        injection Hi as ->. by left.
      * right. exists i. by rewrite Nat.add_succ_comm.
Qed.

Lemma picked_from_sublist (pos : nat) (checked : nat → bool)
    (communities : list Community) :
  picked_from pos checked communities `sublist_of` communities.
Proof.
  revert pos. induction communities as [|c0 cs IH]; intros pos; simpl; [done|].
  destruct (checked pos); simpl; [by apply sublist_skip|by apply sublist_cons].
Qed.

(** The indices that the prompt returns, looked up in the whole array. *)
Lemma select_from (checked : nat → bool) (before communities : list Community) :
  (λ index, (before ++ communities) !! index)
    <$> checkbox_from (length before) checked
          (imap (λ i, choice_of (length before + i)) communities)
  = Some <$> picked_from (length before) checked communities.
Proof.
  revert before. induction communities as [|c0 cs IH]; intros before; [done|].
  rewrite imap_cons. simpl. rewrite !fmap_app. f_equal.
  - destruct (checked (length before)); [|done]. simpl.
    by rewrite Nat.add_0_r, list_lookup_middle.
  - specialize (IH (before ++ [c0])).
    rewrite length_app, <- (assoc_L (++)) in IH. simpl in IH.
    rewrite Nat.add_1_r in IH. rewrite <- IH. do 2 f_equal.
    apply imap_ext. intros i c _. simpl. f_equal. lia.
Qed.

(** X14. [selectCommunities] returns the communities at the positions the
    user has checked, in the order of the listing: a sublist of the
    listing, with no [undefined] entry. *)
Theorem selectCommunities_picked (checked : nat → bool)
    (communities : list Community) :
  selectCommunities checked communities
  = Some <$> picked_from 0 checked communities
  ∧ picked_from 0 checked communities `sublist_of` communities
  ∧ ∀ c, c ∈ picked_from 0 checked communities
         ↔ ∃ i, communities !! i = Some c ∧ checked i = true.
Proof.
  split; [|split].
  - exact (select_from checked [] communities).
  - apply picked_from_sublist.
  - intros c. apply picked_from_elem_of.
Qed.

Lemma string_app_empty (s : string) : s +:+ "" = s.
Proof.
  induction s as [|a s IH]; [done|].
  change (String a (s +:+ "") = String a s). by rewrite IH.
Qed.

(** X15. The label of a choice starts with the name of the community. It
    is the name alone when there is no description or an empty one;
    otherwise the name is followed by [" - "] and the first 60 characters
    of the description, 63 characters at most. The value of the choice is
    the position of the community, its short form the name. *)
Theorem choice_of_label (index : nat) (comm : Community) :
  value (choice_of index comm) = index
  ∧ short (choice_of index comm) = name comm
  ∧ String.prefix (name comm) (choice_name (choice_of index comm)) = true
  ∧ String.length (choice_name (choice_of index comm))
    ≤ String.length (name comm) + 63
  ∧ (choice_name (choice_of index comm) = name comm
     ∧ or_string (description comm) "" = ""
     ∨ ∃ d, description comm = Some d ∧ d ≠ ""
         ∧ choice_name (choice_of index comm)
           = name comm +:+ " - " +:+ String.substring 0 60 d).
Proof.
  split; [done|]. split; [done|]. split; [apply string_prefix_app|].
  unfold choice_of. cbn [choice_name]. rewrite string_length_app. split.
  - destruct (description comm) as [[|a d]|]; simpl; try lia.
    pose proof (string_length_substring 60 (String a d)). simpl in *. lia.
  - destruct (description comm) as [[|a d]|].
    + left. by rewrite string_app_empty.
    + right. by exists (String a d).
    + left. by rewrite string_app_empty.
Qed.

Example choice_of_long_description :
  choice_name (choice_of 4
    {| id := "c-ops"; name := "Operations";
       description := Some
         "Everything that keeps the plants running, from procurement to maintenance and logistics";
       parent := None |})
  = "Operations - Everything that keeps the plants running, from procurement t".
Proof. reflexivity. Qed.


Example selectCommunities_some :
  selectCommunities some_positions finance_listing
  = [ Some (top "c-fin" "Finance");
      Some (sub "c-acc" "Finance Accounting" "c-emea");
      Some (sub "c-emea" "Finance EMEA" "c-fin") ].
Proof. reflexivity. Qed.

(** ** Pages of the catalog *)

Section CatalogPages.
Context {Remote : Type}.
Variable axios_get :
  Request → Remote → (JsError + gmap string (list Community)) * Remote.
Variable this : CollibraClient.

(** A catalog service serves the whole listing by pages to requests
    that do not filter by name. *)
Lemma catalog_service_serves (all : list Community) (ps : Params) :
  catalog_service axios_get this all → ps !! "name" = None →
  serves axios_get this "/communities" ps "results" all.
Proof.
  intros Hservice Hname off r.
  destruct (Hservice (page_params ps off) off limit r) as (body & r' & Hget & Hpage).
  - unfold page_params. by rewrite lookup_insert_ne, lookup_insert_eq.
  - unfold page_params. by rewrite lookup_insert_eq.
  - exists body, r'. split; [done|]. rewrite Hpage. unfold selected, page_params.
    by rewrite !lookup_insert_ne, Hname.
Qed.

(** X16. Through [fetchAllPages] the catalog comes whole: against the
    service on which [getAllSubcommunities] sees one page only,
    [fetchAllPages] on [/communities], without a filter on the name,
    returns every community, in the order of the service, whatever
    their number. *)
Theorem fetchAllPages_lists_catalog (all : list Community) (ps : Params)
    (fuel : nat) (w : World Remote) :
  catalog_service axios_get this all → ps !! "name" = None →
  length all / limit + 2 ≤ fuel →
  ∃ w1, fetchAllPages axios_get this fuel "/communities" ps "results" w
        = (Returned all, w1).
Proof.
  intros Hservice Hname Hfuel.
  pose proof limit_pos as Hpos.
  replace fuel with (length all / limit + 2 + (fuel - length all / limit - 2))
    by lia.
  pose proof (Nat.Div0.mul_div_le (length all) limit) as Hlo.
  pose proof (Nat.mul_succ_div_gt (length all) limit ltac:(lia)) as Hhi.
  destruct (while_serves axios_get this "/communities" ps "results" all
              (length all / limit) (fuel - length all / limit - 2)
              first_page w) as (w1 & Hrun & _);
    [by apply catalog_service_serves | done | done | simpl; lia | simpl; lia |].
  by exists w1.
Qed.
End CatalogPages.

Lemma fetchAllPages_lists_catalog_witness :
  catalog_service (catalog_get large_listing) example_client large_listing
  ∧ (defaultParams : Params) !! "name" = None
  ∧ length large_listing / limit + 2 ≤ 3
  ∧ ∃ w1, fetchAllPages (catalog_get large_listing) example_client 3
            "/communities" defaultParams "results" (quiet ())
          = (Returned large_listing, w1).
Proof.
  assert (length large_listing / limit + 2 ≤ 3) as Hfuel by (vm_compute; lia).
  split; [apply catalog_get_service|]. split; [reflexivity|]. split; [exact Hfuel|].
  exact (fetchAllPages_lists_catalog (catalog_get large_listing) example_client
           large_listing defaultParams 3 (quiet ()) (catalog_get_service _ _)
           eq_refl Hfuel).
Defined.
